(** * The deal-update watcher of powergate (deals/module/dealwatcher)

    A shallow embedding of [dealwatcher.go]: the subscription registry
    ([Subscribe], [Unsubscribe]), the shutdown operation ([Close]) and the
    background goroutine started by [startDaemon], followed by the properties
    the specification states about them. *)

From stdpp Require Import gmap strings list fin_maps.

Open Scope Z_scope.

(** ** Data model *)

(** [cid.Cid] is a struct wrapping one string; equality is equality of that
    string and the zero value [cid.Undef] wraps the empty string. *)
Abbreviation Cid := string (only parsing).

Definition cid_Undef : Cid := EmptyString.

(** A value of type [chan<- struct{}]: either the nil channel or a reference
    to an allocated channel. [==] on channels is identity of the reference. *)
Inductive Chan : Type :=
| NilChan
| ChanRef (addr : nat).

#[global] Instance Chan_eq_dec : EqDecision Chan.
Proof. solve_decision. Defined.

(** The two sentinel errors of the package; a nil [error] is [None]. *)
Inductive error : Type :=
| ErrNotFound
| ErrActiveSubscription.

#[global] Instance error_eq_dec : EqDecision error.
Proof. solve_decision. Defined.

(** The field [subs map[cid.Cid][]chan<- struct{}] of [DealWatcher]. A key
    that is absent reads as the nil slice, which [slice_of] renders as the
    empty list. *)
Abbreviation registry := (gmap string (list Chan)) (only parsing).

Definition slice_of (o : option (list Chan)) : list Chan := default [] o.

(** ** Subscription registry *)

Module Registry.

(** The loop of [Subscribe]:
    [for _, ich := range dw.subs[proposalCid] { if ch == ich { return ... } }]. *)
Fixpoint already_subscribed (ch : Chan) (l : list Chan) : bool :=
  match l with
  | [] => false
  | ich :: rest => if decide (ch = ich) then true else already_subscribed ch rest
  end.

(** [Subscribe(ch, proposalCid)]: the registry after the call and the error
    returned.  The log line written on success is left out. *)
Definition Subscribe (ch : Chan) (proposalCid : Cid) (subs : registry)
  : registry * option error :=
  if already_subscribed ch (slice_of (subs !! proposalCid)) then
    (subs, Some ErrActiveSubscription)
  else
    (<[proposalCid := slice_of (subs !! proposalCid) ++ [ch]]> subs, None).

(** The search loop of [Unsubscribe]: [idx] starts at [-1] and is set to the
    first position [i] with [subs[i] == ch]; [i] is the position of the head
    of [l] in the whole slice. *)
Fixpoint find_idx (ch : Chan) (l : list Chan) (i : Z) : Z :=
  match l with
  | [] => -1
  | s :: rest => if decide (s = ch) then i else find_idx ch rest (i + 1)
  end.

(** [subs[idx] = subs[len(subs)-1]; subs = subs[:len(subs)-1]].  Both indices
    are in range on the path that reaches these lines; an index out of range
    would leave the slice untouched here (Go would panic). *)
Definition swap_remove (l : list Chan) (idx : Z) : list Chan :=
  match l !! (length l - 1)%nat with
  | Some lst => take (length l - 1)%nat (<[Z.to_nat idx := lst]> l)
  | None => l
  end.

(** [Unsubscribe(ch, proposalCid)]. *)
Definition Unsubscribe (ch : Chan) (proposalCid : Cid) (subs : registry)
  : registry * option error :=
  match subs !! proposalCid with
  | None => (subs, Some ErrNotFound)
  | Some l =>
      let idx := find_idx ch l 0 in
      if decide (idx = -1) then (subs, Some ErrNotFound)
      else if decide (length l = 1%nat) then (delete proposalCid subs, None)
      else (<[proposalCid := swap_remove l idx]> subs, None)
  end.

(** A call on the registry, and the registry left by a sequence of calls. *)
Inductive op : Type :=
| OpSubscribe (ch : Chan) (id : Cid)
| OpUnsubscribe (ch : Chan) (id : Cid).

Definition apply_op (o : op) (subs : registry) : registry * option error :=
  match o with
  | OpSubscribe ch id => Subscribe ch id subs
  | OpUnsubscribe ch id => Unsubscribe ch id subs
  end.

Fixpoint run_ops (ops : list op) (subs : registry) : registry :=
  match ops with
  | [] => subs
  | o :: rest => run_ops rest (apply_op o subs).1
  end.

(** The registry invariant: no identifier is mapped to an empty slice and no
    slice holds a channel twice. *)
Definition registry_wf (subs : registry) : Prop :=
  forall id l, subs !! id = Some l -> l <> [] /\ NoDup l.

End Registry.

(** ** Subscriber channels *)

(** What a non-blocking send can observe of an allocated channel: whether it
    was closed, how many values sit in its buffer, the buffer's capacity and
    how many receivers are blocked on it. *)
Record chan_state : Type := {
  ch_closed : bool;
  ch_len : nat;
  ch_cap : nat;
  ch_recvq : nat;
}.

(** The allocated channels, by address. *)
Abbreviation heap := (gmap nat chan_state) (only parsing).

Inductive send_result : Type :=
| Sent          (* the case [s <- struct{}{}] was taken *)
| Skipped       (* the [default] case was taken *)
| SendPanics.   (* send on a closed channel *)

#[global] Instance send_result_eq_dec : EqDecision send_result.
Proof. solve_decision. Defined.

(** [select { case s <- struct{}{}: default: ... }] on one channel.  A send
    on the nil channel is never ready (a reference to nothing in the heap is
    read the same way); a send on a closed channel panics; an open channel
    takes the value when a receiver is waiting or the buffer has room. *)
Definition try_send (s : Chan) (h : heap) : heap * send_result :=
  match s with
  | NilChan => (h, Skipped)
  | ChanRef a =>
      match h !! a with
      | None => (h, Skipped)
      | Some st =>
          if ch_closed st then (h, SendPanics)
          else if (0 <? ch_recvq st)%nat then
            (<[a := {| ch_closed := false; ch_len := ch_len st;
                       ch_cap := ch_cap st; ch_recvq := (ch_recvq st - 1)%nat |}]> h, Sent)
          else if (ch_len st <? ch_cap st)%nat then
            (<[a := {| ch_closed := false; ch_len := S (ch_len st);
                       ch_cap := ch_cap st; ch_recvq := ch_recvq st |}]> h, Sent)
          else (h, Skipped)
      end
  end.

(** ** The watcher and its background goroutine *)

(** [api.DealInfo]: the goroutine reads its field [ProposalCid] only. *)
Record DealInfo : Type := { ProposalCid : Cid }.

(** The zero value, which a receive from a closed channel yields. *)
Definition zero_DealInfo : DealInfo := {| ProposalCid := cid_Undef |}.

(** A connection to the upstream node, named by a number: its updates channel
    and its cleanup function [cls]. *)
Abbreviation conn := nat (only parsing).

(** What one call of [createUpdateChan] meets. *)
Inductive dial : Type :=
| DialCbFails                  (* [dw.cb] returns an error *)
| DialUpdatesFails (c : conn)  (* client [c] is built, [ClientGetDealUpdates] fails *)
| DialOk (c : conn).           (* both succeed *)

(** [createUpdateChan]: [Some c] is [(updates, cls, nil)] for connection [c],
    [None] is [(nil, nil, err)]. *)
Definition createUpdateChan (r : dial) : option conn :=
  match r with
  | DialCbFails => None
  | DialUpdatesFails _ => None
  | DialOk c => Some c
  end.

Inductive level : Type := Info | Warn | Error.

(** What the goroutine does that can be seen from outside. *)
Inductive event : Type :=
| EvCreateUpdateChan (r : dial)          (* a call of [createUpdateChan] *)
| EvLog (l : level) (msg : string)
| EvCleanup (c : conn)                   (* [cls()] of connection [c] *)
| EvSleep (seconds : Z)                  (* [time.Sleep] *)
| EvLookup (id : Cid)                    (* [dw.subs[di.ProposalCid]] *)
| EvSend (s : Chan) (r : send_result)    (* one non-blocking send *)
| EvCloseFinished.                       (* [close(dw.closeFinished)] *)

#[global] Instance dial_eq_dec : EqDecision dial.
Proof. solve_decision. Defined.
#[global] Instance level_eq_dec : EqDecision level.
Proof. solve_decision. Defined.
#[global] Instance event_eq_dec : EqDecision event.
Proof. solve_decision. Defined.

(** Where the goroutine of [startDaemon] stands. *)
Inductive pc : Type :=
| AtStart                  (* before the first [createUpdateChan] *)
| AtSelect (c : conn)      (* blocked in the outer [select], holding [c] *)
| AtRetry (di : DealInfo)  (* in the reconnect loop; [di] is the received record *)
| Returned                 (* the goroutine has returned *)
| Crashed.                 (* the goroutine has panicked *)

(** The fields of [DealWatcher], the goroutine and the subscribers' channels. *)
Record state : Type := {
  subs : registry;
  closeCtx_done : bool;   (* [closeCancel] was called: [closeCtx.Err() != nil] *)
  closeFinished : bool;   (* the channel [closeFinished] was closed *)
  closed : bool;
  goroutine : pc;
  chans : heap;
}.

(** [New]: an empty registry and a goroutine about to connect. *)
Definition New (h : heap) : state :=
  {| subs := ∅; closeCtx_done := false; closeFinished := false;
     closed := false; goroutine := AtStart; chans := h |}.

(** The inner loop [for _, s := range subs { select { ... } }]: the channels
    after it, its events, and whether a send panicked. *)
Fixpoint send_all (l : list Chan) (h : heap) : heap * list event * bool :=
  match l with
  | [] => (h, [], false)
  | s :: rest =>
      match try_send s h with
      | (h', Sent) =>
          let '(h'', evs, p) := send_all rest h' in (h'', EvSend s Sent :: evs, p)
      | (h', Skipped) =>
          let '(h'', evs, p) := send_all rest h' in
          (h'', EvSend s Skipped :: EvLog Warn "skipping slow receiver" :: evs, p)
      | (h', SendPanics) => (h', [EvSend s SendPanics], true)
      end
  end.

(** The deferred calls, run when the goroutine returns or panics after they
    were registered: [cls()] of the connection held, then
    [close(dw.closeFinished)]. *)
Definition run_defers (c : conn) : list event := [EvCleanup c; EvCloseFinished].

Definition set_goroutine (st : state) (p : pc) (fin : bool) (h : heap) : state :=
  {| subs := subs st; closeCtx_done := closeCtx_done st; closeFinished := fin;
     closed := closed st; goroutine := p; chans := h |}.

(** [return] from inside the loop. *)
Definition do_return (c : conn) (st : state) : state * list event :=
  (set_goroutine st Returned true (chans st), run_defers c).

(** The tail of the loop body, from [dw.lock.Lock()] on, for the record [di]
    while connection [c] is held. *)
Definition fanout (c : conn) (di : DealInfo) (st : state) : state * list event :=
  match subs st !! ProposalCid di with
  | None => (set_goroutine st (AtSelect c) (closeFinished st) (chans st),
             [EvLookup (ProposalCid di)])
  | Some l =>
      let '(h', evs, panicked) := send_all l (chans st) in
      if panicked then
        (set_goroutine st Crashed true h',
         EvLookup (ProposalCid di) :: evs ++ run_defers c)
      else
        (set_goroutine st (AtSelect c) (closeFinished st) h',
         EvLookup (ProposalCid di) :: evs)
  end.

(** What the goroutine is offered next. *)
Inductive input : Type :=
| InDial (r : dial)       (* the outcome of the pending [createUpdateChan] *)
| InDone                  (* the select takes [<-dw.closeCtx.Done()] *)
| InRecv (di : DealInfo)  (* the select receives [di, true] *)
| InClosed.               (* the select receives from the closed channel *)

(** One step of the goroutine; [None] when it cannot take the input where
    it stands. *)
Definition step (st : state) (i : input) : option (state * list event) :=
  match goroutine st, i with
  | AtStart, InDial r =>
      match createUpdateChan r with
      | None =>
          Some (set_goroutine st Returned (closeFinished st) (chans st),
                [EvCreateUpdateChan r; EvLog Error "creating initial updates chan"])
      | Some c =>
          Some (set_goroutine st (AtSelect c) (closeFinished st) (chans st),
                [EvCreateUpdateChan r; EvLog Info "deal watcher created"])
      end
  | AtSelect c, InDone =>
      if closeCtx_done st then Some (do_return c st) else None
  | AtSelect c, InRecv di => Some (fanout c di st)
  | AtSelect c, InClosed =>
      if closeCtx_done st then Some (do_return c st)
      else
        Some (set_goroutine st (AtRetry zero_DealInfo) (closeFinished st) (chans st),
              [EvLog Warn "updates channel closed unexpectedly"; EvCleanup c])
  | AtRetry di, InDial r =>
      match createUpdateChan r with
      | None =>
          Some (st, [EvCreateUpdateChan r;
                     EvLog Warn "reconstructing updates channel"; EvSleep 30])
      | Some c =>
          let '(st', evs) := fanout c di st in
          Some (st', EvCreateUpdateChan r :: evs)
      end
  | _, _ => None
  end.

(** The goroutine fed a sequence of inputs. *)
Fixpoint run (ins : list input) (st : state) : option (state * list event) :=
  match ins with
  | [] => Some (st, [])
  | i :: rest =>
      match step st i with
      | None => None
      | Some (st', evs) =>
          match run rest st' with
          | None => None
          | Some (st'', evs') => Some (st'', evs ++ evs')
          end
      end
  end.

(** ** Shutdown *)

Inductive close_result : Type :=
| CloseReturns (err : option error)  (* [Close] returned [err] *)
| CloseBlocked                       (* still blocked in [<-dw.closeFinished] *)
| CloseWaitsLock.                    (* still blocked in [dw.closeLock.Lock()] *)

(** The goroutine taking inputs until [closeFinished] is closed: what the
    caller blocked in [<-dw.closeFinished] waits for. *)
Fixpoint await_finished (ins : list input) (st : state)
  : option (state * list event * bool) :=
  if closeFinished st then Some (st, [], true)
  else
    match ins with
    | [] => Some (st, [], false)
    | i :: rest =>
        match step st i with
        | None => None
        | Some (st', evs) =>
            match await_finished rest st' with
            | None => None
            | Some (st'', evs', b) => Some (st'', evs ++ evs', b)
            end
        end
    end.

(** Whether [closeLock] is held when a call of [Close] begins.  A caller
    keeps the lock from [Lock()] to the deferred [Unlock]: one that finds
    [closed] set returns at once, one that finds it unset sets it and keeps
    the lock while it is blocked in [<-dw.closeFinished].  So the lock is
    held exactly when [closed] is set and [closeFinished] is not yet
    closed. *)
Definition closeLock_held (st : state) : bool :=
  closed st && negb (closeFinished st).

(** [Close()]; [ins] is what the goroutine meets while the caller waits.
    When the lock is held the caller waits in [dw.closeLock.Lock()] for the
    holder, who waits for [closeFinished]; once that is closed the holder
    returns and unlocks, and the caller, with the lock, finds [closed] set
    (the holder set it) and returns nil.  When the lock is free the caller
    takes it and runs the body. *)
Definition Close (ins : list input) (st : state)
  : option (state * list event * close_result) :=
  if closeLock_held st then
    match await_finished ins st with
    | None => None
    | Some (st2, evs, true) => Some (st2, evs, CloseReturns None)
    | Some (st2, evs, false) => Some (st2, evs, CloseWaitsLock)
    end
  else if closed st then Some (st, [], CloseReturns None)
  else
    let st1 := {| subs := subs st; closeCtx_done := true;
                  closeFinished := closeFinished st; closed := true;
                  goroutine := goroutine st; chans := chans st |} in
    match await_finished ins st1 with
    | None => None
    | Some (st2, evs, true) => Some (st2, evs, CloseReturns None)
    | Some (st2, evs, false) => Some (st2, evs, CloseBlocked)
    end.

(** [Subscribe] and [Unsubscribe] as methods of the watcher. *)
Definition dw_Subscribe (ch : Chan) (id : Cid) (st : state) : state * option error :=
  let '(m, e) := Registry.Subscribe ch id (subs st) in
  ({| subs := m; closeCtx_done := closeCtx_done st; closeFinished := closeFinished st;
      closed := closed st; goroutine := goroutine st; chans := chans st |}, e).

Definition dw_Unsubscribe (ch : Chan) (id : Cid) (st : state) : state * option error :=
  let '(m, e) := Registry.Unsubscribe ch id (subs st) in
  ({| subs := m; closeCtx_done := closeCtx_done st; closeFinished := closeFinished st;
      closed := closed st; goroutine := goroutine st; chans := chans st |}, e).

(** ** Vocabulary of the statements *)

(** The channels a run of events attempted a send on, in order. *)
Fixpoint sends (evs : list event) : list Chan :=
  match evs with
  | [] => []
  | EvSend s _ :: rest => s :: sends rest
  | _ :: rest => sends rest
  end.

(** The same attempts, each with what became of it. *)
Fixpoint outcomes (evs : list event) : list (Chan * send_result) :=
  match evs with
  | [] => []
  | EvSend s r :: rest => (s, r) :: outcomes rest
  | _ :: rest => outcomes rest
  end.

(** Whether channel [s] was closed by its owner. *)
Definition is_closed (s : Chan) (h : heap) : bool :=
  match s with
  | NilChan => false
  | ChanRef a => match h !! a with Some cs => ch_closed cs | None => false end
  end.

(** Whether a send on [s] can complete at once. *)
Definition can_accept (s : Chan) (h : heap) : bool :=
  match s with
  | NilChan => false
  | ChanRef a =>
      match h !! a with
      | Some cs =>
          negb (ch_closed cs) && ((0 <? ch_recvq cs)%nat || (ch_len cs <? ch_cap cs)%nat)
      | None => false
      end
  end.

(** The fanout of one record [di], as the specification describes it: the
    goroutine raises nothing and is back at its select; one send was
    attempted on each channel registered for the record's identifier, in
    order (none when the identifier has no entry); each attempt is a real
    non-blocking send, so that the attempt on a channel, at its first place
    in the slice, hands the value over when the channel could take it and
    is skipped when it could not; a channel that could not take the value
    was skipped, whatever happened to the others; an identifier with no
    entry gives a lookup and nothing else; the registry is unchanged. *)
Definition fanout_as_specified (c : conn) (di : DealInfo) (st : state) : Prop :=
  let '(st', evs) := fanout c di st in
  goroutine st' = AtSelect c /\
  sends evs = slice_of (subs st !! ProposalCid di) /\
  (forall l1 s l2,
     slice_of (subs st !! ProposalCid di) = l1 ++ s :: l2 ->
     s ∉ l1 ->
     outcomes evs !! length l1
       = Some (s, if can_accept s (chans st) then Sent else Skipped)) /\
  (forall s, can_accept s (chans st) = false ->
     (forall r, EvSend s r ∈ evs -> r = Skipped) /\
     can_accept s (chans st') = false) /\
  (subs st !! ProposalCid di = None ->
     evs = [EvLookup (ProposalCid di)] /\ chans st' = chans st) /\
  subs st' = subs st.

(** The events of one failed attempt of the reconnect loop. *)
Definition retry_events (r : dial) : list event :=
  [EvCreateUpdateChan r; EvLog Warn "reconstructing updates channel"; EvSleep 30].

(** The goroutine in the reconnect loop, just after [cls()] of the broken
    connection. *)
Definition at_retry (st : state) : state :=
  set_goroutine st (AtRetry zero_DealInfo) (closeFinished st) (chans st).

(** [Close] as the specification states it of a call that finds [closed]
    set: it returns nil at once, nothing changed and nothing awaited. *)
Definition later_Close_returns_at_once (ins : list input) (st : state) : Prop :=
  closed st = true -> Close ins st = Some (st, [], CloseReturns None).

(** The connections released by a run of events ([cls()] calls), and the
    connections obtained by it (successful [createUpdateChan] calls), each
    in order. *)
Fixpoint cleaned (evs : list event) : list conn :=
  match evs with
  | [] => []
  | EvCleanup c :: rest => c :: cleaned rest
  | _ :: rest => cleaned rest
  end.

Fixpoint connected (evs : list event) : list conn :=
  match evs with
  | [] => []
  | EvCreateUpdateChan (DialOk c) :: rest => c :: connected rest
  | _ :: rest => connected rest
  end.

(** The connection the goroutine holds and still has to release. *)
Definition owed (p : pc) : list conn :=
  match p with
  | AtSelect c => [c]
  | _ => []
  end.

(** ** Sample registries, used to exercise the statements below *)

Definition reg_one : gmap string (list Chan) := {[ "a" := [ChanRef 1] ]}.

Definition reg_three : gmap string (list Chan) :=
  {[ "a" := [ChanRef 1; ChanRef 2; ChanRef 3] ]}.

(** ** Sample channels and watchers *)

Definition buffered (cap len : nat) : chan_state :=
  {| ch_closed := false; ch_len := len; ch_cap := cap; ch_recvq := 0 |}.

Definition closed_chan : chan_state :=
  {| ch_closed := true; ch_len := 0; ch_cap := 1; ch_recvq := 0 |}.

(** Channel 1 is full, channel 2 has room. *)
Definition heap_full_first : gmap nat chan_state :=
  {[ 1%nat := buffered 1 1; 2%nat := buffered 1 0 ]}.

(** Channel 1 was closed by its owner, channel 2 has room. *)
Definition heap_closed_first : gmap nat chan_state :=
  {[ 1%nat := closed_chan; 2%nat := buffered 1 0 ]}.

(** A running watcher holding connection 7, with channels 1 and 2 subscribed
    to ["a"]. *)
Definition watching (h : gmap nat chan_state) : state :=
  {| subs := {[ "a" := [ChanRef 1; ChanRef 2] ]};
     closeCtx_done := false; closeFinished := false; closed := false;
     goroutine := AtSelect 7; chans := h |}.

(** The watcher [watching h] after a first [Close] that saw the goroutine
    take the cancellation. *)
Definition shut_down (h : gmap nat chan_state) : state :=
  {| subs := {[ "a" := [ChanRef 1; ChanRef 2] ]};
     closeCtx_done := true; closeFinished := true; closed := true;
     goroutine := Returned; chans := h |}.

(** ** The in-memory transactional datastore (package [tests]) *)

Module Datastore.

(** A [datastore.Key], by its text, and a value of type [[]byte]. *)
Abbreviation Key := string (only parsing).
Abbreviation bytes := (list Byte.byte) (only parsing).

(** [datastore.ErrNotFound], or any other error a datastore returns. *)
Inductive ds_error : Type :=
| ErrDsNotFound
| ErrDs (msg : string).

(** The interface [datastore.Datastore] as far as [SimpleTx] calls it, on a
    datastore state [D]: each method gives its results and, for the writing
    ones, the state it leaves. *)
Class Target (D : Type) : Type := {
  t_Get : D -> Key -> bytes * option ds_error;
  t_Has : D -> Key -> bool * option ds_error;
  t_Put : D -> Key -> bytes -> D * option ds_error;
  t_Delete : D -> Key -> D * option ds_error;
}.

(** Modelled from the spec: the embedded [datastore.MapDatastore], a simple
    in-memory map from keys to values whose [Put] and [Delete] always
    succeed and whose [Get] of a missing key returns [ErrNotFound].
    [TxMapDatastore] holds nothing else but a lock, and its [Get], [Put] and
    [Delete] call the embedded ones under that lock. *)
Abbreviation TxMapDatastore := (gmap string (list Byte.byte)) (only parsing).

Definition NewTxMapDatastore : TxMapDatastore := ∅.

Definition TxMap_Get (d : TxMapDatastore) (key : Key) : bytes * option ds_error :=
  match d !! key with
  | Some v => (v, None)
  | None => ([], Some ErrDsNotFound)
  end.

Definition TxMap_Has (d : TxMapDatastore) (key : Key) : bool * option ds_error :=
  (bool_decide (is_Some (d !! key)), None).

Definition TxMap_Put (d : TxMapDatastore) (key : Key) (data : bytes)
  : TxMapDatastore * option ds_error :=
  (<[key := data]> d, None).

Definition TxMap_Delete (d : TxMapDatastore) (key : Key)
  : TxMapDatastore * option ds_error :=
  (delete key d, None).

#[global] Instance TxMap_Target : Target (gmap string (list Byte.byte)) := {
  t_Get := TxMap_Get;
  t_Has := TxMap_Has;
  t_Put := TxMap_Put;
  t_Delete := TxMap_Delete;
}.

(** [type op struct { delete bool; value []byte }]. *)
Record op : Type := { op_delete : bool; op_value : bytes }.

(** The field [ops] of a [SimpleTx]; its [target] is the datastore state the
    methods below are given. *)
Abbreviation tx_ops := (gmap string op) (only parsing).

(** [NewSimpleTx]: no buffered operation. *)
Definition NewSimpleTx : tx_ops := ∅.

(** [TxMapDatastore.NewTransaction]: a transaction on the datastore itself;
    it never fails. *)
Definition NewTransaction (d : TxMapDatastore) : tx_ops * option ds_error :=
  (NewSimpleTx, None).

(** [SimpleTx.Get] and [SimpleTx.Has] read the target. *)
Definition SimpleTx_Get {D} `{Target D} (ops : tx_ops) (d : D) (k : Key)
  : bytes * option ds_error := t_Get d k.

Definition SimpleTx_Has {D} `{Target D} (ops : tx_ops) (d : D) (k : Key)
  : bool * option ds_error := t_Has d k.

(** [SimpleTx.Put]: [bt.ops[key] = op{value: val}]. *)
Definition SimpleTx_Put (ops : tx_ops) (key : Key) (val : bytes)
  : tx_ops * option ds_error :=
  (<[key := {| op_delete := false; op_value := val |}]> ops, None).

(** [SimpleTx.Delete]: [bt.ops[key] = op{delete: true}]. *)
Definition SimpleTx_Delete (ops : tx_ops) (key : Key) : tx_ops * option ds_error :=
  (<[key := {| op_delete := true; op_value := [] |}]> ops, None).

(** [SimpleTx.Discard] takes the lock and releases it. *)
Definition SimpleTx_Discard (ops : tx_ops) : tx_ops := ops.

(** The loop of [SimpleTx.Commit] over the buffered operations in the order
    [range bt.ops] yields them, stopping at the first error. *)
Fixpoint commit_loop {D} `{Target D} (order : list (Key * op)) (d : D)
  : D * option ds_error :=
  match order with
  | [] => (d, None)
  | (k, o) :: rest =>
      let '(d', err) :=
        if op_delete o then t_Delete d k else t_Put d k (op_value o) in
      match err with
      | Some e => (d', Some e)
      | None => commit_loop rest d'
      end
  end.

(** An order in which [range] may yield the entries of [ops]. *)
Definition iteration_of (ops : tx_ops) (order : list (Key * op)) : Prop :=
  order ≡ₚ map_to_list ops.

(** [SimpleTx.Commit], for the iteration order [order] of [ops]. *)
Definition SimpleTx_Commit {D} `{Target D} (order : list (Key * op))
    (ops : tx_ops) (d : D) : D * option ds_error :=
  commit_loop order d.

(** What a committed transaction amounts to on the map datastore: a key with
    a buffered operation gets that operation's outcome, every other key
    keeps its value. *)
Definition overlay (ops : tx_ops) (d : TxMapDatastore) : TxMapDatastore :=
  merge (fun o v =>
           match o with
           | Some o => if op_delete o then None else Some (op_value o)
           | None => v
           end) ops d.

(** A write made through a transaction, and a sequence of them buffered in
    turn. *)
Inductive write : Type :=
| WPut (key : Key) (val : bytes)
| WDelete (key : Key).

Definition buffer_write (ops : tx_ops) (w : write) : tx_ops :=
  match w with
  | WPut k v => (SimpleTx_Put ops k v).1
  | WDelete k => (SimpleTx_Delete ops k).1
  end.

(** The same write made on the datastore directly. *)
Definition direct_write (d : TxMapDatastore) (w : write) : TxMapDatastore :=
  match w with
  | WPut k v => (TxMap_Put d k v).1
  | WDelete k => (TxMap_Delete d k).1
  end.

(** A datastore that refuses to write under the key ["ro"], to exercise the
    error path of [Commit]. *)
Record guarded : Type := { guarded_map : gmap string (list Byte.byte) }.

#[global] Instance guarded_Target : Target guarded := {
  t_Get g k := TxMap_Get (guarded_map g) k;
  t_Has g k := TxMap_Has (guarded_map g) k;
  t_Put g k v :=
    if decide (k = "ro") then (g, Some (ErrDs "read-only key"))
    else ({| guarded_map := <[k := v]> (guarded_map g) |}, None);
  t_Delete g k :=
    if decide (k = "ro") then (g, Some (ErrDs "read-only key"))
    else ({| guarded_map := delete k (guarded_map g) |}, None);
}.

End Datastore.

(** ** The store of reputation sources (package [source]) *)

Module SourceStore.

Import Datastore.

(** What the store takes from [go-datastore] besides the datastore itself:
    [Key.ChildString], [datastore.NewKey] on the text of a key, and the
    test by which a query with a [Prefix] keeps an entry. *)
Class KeyLib : Type := {
  Key_ChildString : Key -> string -> Key;
  NewKey : string -> Key;
  query_keeps : string -> Key -> bool;
}.

(** The type [Source], whose declaration is in another file: its field [ID]
    and its JSON encoding, each direction giving a value or an error
    message. *)
Class Codec (Source : Type) : Type := {
  Source_ID : Source -> string;
  json_Marshal : Source -> bytes + string;
  json_Unmarshal : bytes -> Source + string;
}.

(** The errors the store returns: its two sentinels, an error of the
    datastore, an error of [encoding/json]. *)
Inductive store_error : Type :=
| ErrAlreadyExists
| ErrDoesntExists
| ErrDatastore (e : ds_error)
| ErrJSON (msg : string).

(** [baseKey = datastore.NewKey("/reputation/store")]. *)
Definition baseKey : Key := "/reputation/store".

(** [genKey(id) = baseKey.ChildString(id)]. *)
Definition genKey `{KeyLib} (id : string) : Key := Key_ChildString baseKey id.

(** [Store.put]: marshal, buffer the put, commit.  The transaction it is
    given by [Add] and [Update] is empty, so the committed buffer holds one
    operation and [range] has one order to visit it. *)
Definition Store_put `{KeyLib} {Source} `{Codec Source}
    (ops : tx_ops) (s : Source) (d : TxMapDatastore)
  : TxMapDatastore * option store_error :=
  match json_Marshal s with
  | inr msg => (d, Some (ErrJSON msg))
  | inl b =>
      let '(ops', err) := SimpleTx_Put ops (genKey (Source_ID s)) b in
      match err with
      | Some e => (d, Some (ErrDatastore e))
      | None =>
          let '(d', err) := SimpleTx_Commit (map_to_list ops') ops' d in
          (d', ErrDatastore <$> err)
      end
  end.

(** [Store.Add]. *)
Definition Store_Add `{KeyLib} {Source} `{Codec Source}
    (s : Source) (d : TxMapDatastore) : TxMapDatastore * option store_error :=
  let '(txn, err) := NewTransaction d in
  match err with
  | Some e => (d, Some (ErrDatastore e))
  | None =>
      let k := genKey (Source_ID s) in
      let '(ok, err) := SimpleTx_Has txn d k in
      match err with
      | Some e => (d, Some (ErrDatastore e))
      | None => if ok then (d, Some ErrAlreadyExists) else Store_put txn s d
      end
  end.

(** [Store.Update]. *)
Definition Store_Update `{KeyLib} {Source} `{Codec Source}
    (s : Source) (d : TxMapDatastore) : TxMapDatastore * option store_error :=
  let '(txn, err) := NewTransaction d in
  match err with
  | Some e => (d, Some (ErrDatastore e))
  | None =>
      let k := genKey (Source_ID s) in
      let '(ok, err) := SimpleTx_Has txn d k in
      match err with
      | Some e => (d, Some (ErrDatastore e))
      | None => if ok then Store_put txn s d else (d, Some ErrDoesntExists)
      end
  end.

(** Modelled from the spec: [MapDatastore.Query], which lists the entries of
    the in-memory map in the order [range] yields them ([order]) and keeps,
    when the query has a [Prefix], those the prefix test keeps. *)
Definition TxMap_Query `{KeyLib} (order : list (Key * bytes)) (prefix : string)
    (d : TxMapDatastore) : list (Key * bytes) * option ds_error :=
  (if decide (prefix = EmptyString) then order
   else filter (fun e => query_keeps prefix e.1 = true) order, None).

(** An order in which [range] may yield the entries of the map. *)
Definition listing_of (d : TxMapDatastore) (order : list (Key * bytes)) : Prop :=
  order ≡ₚ map_to_list d.

(** The loop of [Store.GetAll] over the results: the sources decoded so far
    are dropped when a value does not decode. *)
Fixpoint decode_all {Source} `{Codec Source}
    (entries : list (Key * bytes)) (ret : list Source)
  : list Source * option store_error :=
  match entries with
  | [] => (ret, None)
  | (_, v) :: rest =>
      match json_Unmarshal v with
      | inr msg => ([], Some (ErrJSON msg))
      | inl s => decode_all rest (ret ++ [s])
      end
  end.

(** [Store.GetAll], for the order [order] in which the map is listed. *)
Definition Store_GetAll `{KeyLib} {Source} `{Codec Source}
    (order : list (Key * bytes)) (d : TxMapDatastore)
  : list Source * option store_error :=
  let '(txn, err) := NewTransaction d in
  match err with
  | Some e => ([], Some (ErrDatastore e))
  | None =>
      let '(res, err) := TxMap_Query order baseKey d in
      match err with
      | Some e => ([], Some (ErrDatastore e))
      | None => decode_all res []
      end
  end.

(** The loop of [TxMapDatastore.Clone]: each listed entry is put into the
    new datastore under [datastore.NewKey] of its key's text. *)
Fixpoint clone_loop `{KeyLib} (entries : list (Key * bytes)) (t2 : TxMapDatastore)
  : option TxMapDatastore * option ds_error :=
  match entries with
  | [] => (Some t2, None)
  | (k, v) :: rest =>
      let '(t2', err) := TxMap_Put t2 (NewKey k) v in
      match err with
      | Some e => (None, Some e)
      | None => clone_loop rest t2'
      end
  end.

(** [TxMapDatastore.Clone], for the order [order] in which the map is
    listed; [None] is the nil datastore returned with an error. *)
Definition TxMap_Clone `{KeyLib} (order : list (Key * bytes)) (d : TxMapDatastore)
  : option TxMapDatastore * option ds_error :=
  let '(res, err) := TxMap_Query order EmptyString d in
  match err with
  | Some e => (None, Some e)
  | None => clone_loop res NewTxMapDatastore
  end.

(** A key library that joins with a slash, keeps the keys that start with
    the prefix and builds a key from its text unchanged; and sources that
    are just their identifier, encoded as its bytes, with no decoding of the
    empty input. *)
Definition plain_keys : KeyLib :=
  {| Key_ChildString k id := (k ++ "/" ++ id)%string;
     NewKey k := k;
     query_keeps p k := String.prefix p k |}.

Definition name_codec : Codec string :=
  {| Source_ID s := s;
     json_Marshal s := inl (String.list_byte_of_string s);
     json_Unmarshal b :=
       match b with
       | [] => inr "unexpected end of JSON input"
       | _ => inl (String.string_of_list_byte b)
       end |}.

End SourceStore.

(** The watcher [watching h] while a first [Close] is blocked: the flag is
    set, the context cancelled, and the goroutine has not yet taken the
    cancellation. *)
Definition close_pending (h : gmap nat chan_state) : state :=
  {| subs := {[ "a" := [ChanRef 1; ChanRef 2] ]};
     closeCtx_done := true; closeFinished := false; closed := true;
     goroutine := AtSelect 7; chans := h |}.

(** * Properties *)

Section RegistryFacts.

Import Registry.

Implicit Types (ch s : Chan) (id : Cid) (l : list Chan) (m : registry).

Lemma already_subscribed_elem ch l : already_subscribed ch l = true <-> ch ∈ l.
Proof.
  induction l as [|ich rest IH]; simpl.
  - split; [done | by intros ?%elem_of_nil].
  - destruct (decide (ch = ich)) as [->|Hne].
    + split; [intros _; left | done].
    + rewrite IH. split; [by right |].
      intros [?|?]%elem_of_cons; [congruence | done].
Qed.

(** Where the search of [Unsubscribe] stops: nowhere when the channel is not
    in the slice, at its first occurrence otherwise. *)
Lemma find_idx_spec ch l i :
  0 <= i ->
  ((ch ∉ l) /\ find_idx ch l i = -1) \/
  (exists l1 l2, l = l1 ++ ch :: l2 /\ (ch ∉ l1) /\ find_idx ch l i = i + Z.of_nat (length l1)).
Proof.
  revert i. induction l as [|s rest IH]; intros i Hi; simpl.
  - left. split; [apply not_elem_of_nil | done].
  - destruct (decide (s = ch)) as [->|Hne].
    + right. exists [], rest. simpl. split_and!; [done | apply not_elem_of_nil | lia].
    + destruct (IH (i + 1) ltac:(lia)) as [[Hnot Hidx] | (l1 & l2 & -> & Hnot & Hidx)].
      * left. split; [|done]. rewrite not_elem_of_cons. split; [congruence | done].
      * right. exists (s :: l1), l2. simpl. split_and!; [done | | lia].
        rewrite not_elem_of_cons. split; [congruence | done].
Qed.

Lemma find_idx_not_found ch l : find_idx ch l 0 = -1 <-> ch ∉ l.
Proof.
  destruct (find_idx_spec ch l 0 ltac:(lia)) as [[Hnot Hidx] | (l1 & l2 & -> & Hnot & Hidx)].
  - split; done.
  - split; [lia |]. intros Hn. exfalso. apply Hn. set_solver.
Qed.

(** Swap-removal at the position of [ch] drops that occurrence and moves the
    last element into its place. *)
Lemma swap_remove_last l1 ch :
  swap_remove (l1 ++ [ch]) (Z.of_nat (length l1)) = l1.
Proof.
  unfold swap_remove. rewrite length_app. simpl.
  replace (length l1 + 1 - 1)%nat with (length l1) by lia.
  rewrite list_lookup_middle by done. rewrite Nat2Z.id.
  rewrite take_insert_ge by lia. by rewrite take_app_length.
Qed.

Lemma swap_remove_inner l1 ch l2 x :
  swap_remove (l1 ++ ch :: l2 ++ [x]) (Z.of_nat (length l1)) = l1 ++ x :: l2.
Proof.
  unfold swap_remove.
  replace (l1 ++ ch :: l2 ++ [x]) with ((l1 ++ ch :: l2) ++ [x])
    by (by rewrite <- app_assoc).
  rewrite length_app. simpl.
  replace (length (l1 ++ ch :: l2) + 1 - 1)%nat with (length (l1 ++ ch :: l2)) by lia.
  rewrite list_lookup_middle by done. rewrite Nat2Z.id.
  rewrite <- app_assoc. simpl.
  rewrite insert_app_r_alt by lia. rewrite Nat.sub_diag. simpl.
  replace (l1 ++ x :: l2 ++ [x]) with ((l1 ++ x :: l2) ++ [x])
    by (by rewrite <- app_assoc).
  rewrite !length_app. simpl.
  replace (length l1 + S (length l2))%nat with (length (l1 ++ x :: l2))
    by (rewrite length_app; simpl; lia).
  by rewrite take_app_length.
Qed.

Lemma swap_remove_perm l1 ch l2 :
  l1 ++ ch :: l2 ≡ₚ ch :: swap_remove (l1 ++ ch :: l2) (Z.of_nat (length l1)).
Proof.
  destruct l2 as [|y l2' _] using rev_ind.
  - rewrite swap_remove_last. by rewrite <- Permutation_middle, app_nil_r.
  - rewrite swap_remove_inner.
    rewrite <- !Permutation_middle. f_equiv.
    by rewrite app_nil_r.
Qed.

(** What a successful [Unsubscribe] leaves. *)
Lemma Unsubscribe_ok_inv ch id m m' :
  Unsubscribe ch id m = (m', None) ->
  exists l, m !! id = Some l /\ ch ∈ l /\
    l ≡ₚ ch :: slice_of (m' !! id) /\
    m' !! id <> Some [] /\
    (m' !! id = None <-> length l = 1%nat) /\
    (forall id', id' <> id -> m' !! id' = m !! id').
Proof.
  unfold Unsubscribe. destruct (m !! id) as [l|] eqn:Hl; [|done].
  simpl.
  destruct (find_idx_spec ch l 0 ltac:(lia)) as [[Hnot Hidx] | (l1 & l2 & -> & Hnot & Hidx)].
  { rewrite Hidx. by rewrite decide_True. }
  rewrite Hidx. rewrite decide_False by lia. intros Hres.
  exists (l1 ++ ch :: l2). split; [done|]. split; [set_solver|].
  destruct (decide (length (l1 ++ ch :: l2) = 1%nat)) as [Hlen|Hlen];
    injection Hres as <-.
  - rewrite lookup_delete_eq. simpl.
    rewrite length_app in Hlen. simpl in Hlen.
    destruct l1; [|simpl in Hlen; lia]. destruct l2; [|simpl in Hlen; lia].
    split_and!; [done | done | done |].
    intros id' Hne. by rewrite lookup_delete_ne.
  - rewrite lookup_insert_eq. simpl. rewrite Z.add_0_l.
    pose proof (swap_remove_perm l1 ch l2) as Hp.
    split_and!; [done | | split; [done | lia] |].
    + intros [= Heq]. rewrite Heq in Hp. apply Permutation_length in Hp.
      simpl in Hp. lia.
    + intros id' Hne. by rewrite lookup_insert_ne.
Qed.

Lemma Unsubscribe_result ch id m :
  (Unsubscribe ch id m).2 = None \/
  (Unsubscribe ch id m).2 = Some ErrNotFound /\ (Unsubscribe ch id m).1 = m.
Proof.
  unfold Unsubscribe. destruct (m !! id) as [l|]; [|by right].
  simpl. repeat case_decide; simpl; auto.
Qed.

Lemma Unsubscribe_not_found ch id m :
  (Unsubscribe ch id m).2 = Some ErrNotFound <->
  m !! id = None \/ ch ∉ slice_of (m !! id).
Proof.
  unfold Unsubscribe. destruct (m !! id) as [l|] eqn:Hl; simpl.
  - rewrite <- find_idx_not_found.
    repeat case_decide; simpl; split; intros; try done; auto.
    + destruct H1 as [?|?]; done.
    + destruct H1 as [?|?]; done.
  - split; auto.
Qed.

Lemma Subscribe_result ch id m :
  Subscribe ch id m =
    if decide (ch ∈ slice_of (m !! id)) then (m, Some ErrActiveSubscription)
    else (<[id := slice_of (m !! id) ++ [ch]]> m, None).
Proof.
  unfold Subscribe.
  destruct (already_subscribed ch (slice_of (m !! id))) eqn:Hs.
  - apply already_subscribed_elem in Hs. by rewrite decide_True.
  - rewrite decide_False; [done|]. rewrite <- already_subscribed_elem. congruence.
Qed.

(** A subscription stays in place under every call except its own
    [Unsubscribe]. *)
Lemma apply_op_keeps ch id o m :
  o <> OpUnsubscribe ch id ->
  ch ∈ slice_of (m !! id) ->
  ch ∈ slice_of ((apply_op o m).1 !! id).
Proof.
  intros Hne Hin. destruct o as [ch' id' | ch' id']; simpl.
  - rewrite Subscribe_result. case_decide; simpl; [done|].
    destruct (decide (id' = id)) as [->|Hid].
    + rewrite lookup_insert_eq. simpl. set_solver.
    + by rewrite lookup_insert_ne.
  - destruct (Unsubscribe ch' id' m) as [m' e] eqn:Hu. simpl.
    destruct (Unsubscribe_result ch' id' m) as [He | [_ Hsame]];
      rewrite Hu in *; simpl in *; [subst e | by subst m'].
    apply Unsubscribe_ok_inv in Hu as (l & Hl & _ & Hp & _ & _ & Hother).
    destruct (decide (id' = id)) as [->|Hid].
    + rewrite Hl in Hin. simpl in Hin. rewrite Hp in Hin.
      apply elem_of_cons in Hin as [->|Hin]; [congruence | done].
    + rewrite Hother by done. done.
Qed.

Lemma run_ops_keeps ch id ops m :
  OpUnsubscribe ch id ∉ ops ->
  ch ∈ slice_of (m !! id) ->
  ch ∈ slice_of (run_ops ops m !! id).
Proof.
  revert m. induction ops as [|o rest IH]; intros m Hnot Hin; simpl; [done|].
  apply not_elem_of_cons in Hnot as [Ho Hrest].
  apply IH; [done|]. apply apply_op_keeps; [congruence | done].
Qed.

Lemma apply_op_wf o m : registry_wf m -> registry_wf (apply_op o m).1.
Proof.
  intros Hwf. destruct o as [ch id | ch id]; simpl.
  - rewrite Subscribe_result. case_decide as Hin; simpl; [done|].
    intros id' l'. destruct (decide (id = id')) as [<-|Hid].
    + rewrite lookup_insert_eq. intros [= <-]. split.
      * by destruct (slice_of (m !! id)).
      * apply NoDup_app. split_and!.
        -- destruct (m !! id) as [l|] eqn:Hl; simpl; [by apply (Hwf id) | constructor].
        -- intros x Hx ->%list_elem_of_singleton. done.
        -- apply NoDup_singleton.
    + rewrite lookup_insert_ne by done. apply Hwf.
  - destruct (Unsubscribe ch id m) as [m' e] eqn:Hu. simpl.
    destruct (Unsubscribe_result ch id m) as [He | [_ Hsame]];
      rewrite Hu in *; simpl in *; [subst e | by subst m'].
    apply Unsubscribe_ok_inv in Hu as (l & Hl & _ & Hp & Hne & _ & Hother).
    intros id' l'. destruct (decide (id' = id)) as [->|Hid].
    + intros Hl'. rewrite Hl' in Hp, Hne. simpl in Hp. split; [congruence|].
      destruct (Hwf id l Hl) as [_ Hnd]. rewrite Hp in Hnd.
      by apply NoDup_cons in Hnd as [_ ?].
    + rewrite Hother by done. apply Hwf.
Qed.

Lemma run_ops_wf ops m : registry_wf m -> registry_wf (run_ops ops m).
Proof.
  revert m. induction ops as [|o rest IH]; intros m Hwf; simpl; [done|].
  apply IH. by apply apply_op_wf.
Qed.

End RegistryFacts.

(** ** The subscription registry *)

Section RegistryClaims.

Import Registry.

(** C1. Whatever the registry, [Subscribe(ch, id)] returns
    [ErrActiveSubscription] when [ch] is already in the slice of [id]; and
    after a [Subscribe(ch, id)] that returned nil, followed by any calls none
    of which is [Unsubscribe(ch, id)], a second [Subscribe(ch, id)] returns
    [ErrActiveSubscription]. *)
Theorem Subscribe_active_rejected (m : registry) (ch : Chan) (id : Cid) :
  (ch ∈ slice_of (m !! id) ->
   (Subscribe ch id m).2 = Some ErrActiveSubscription) /\
  (forall ops : list op,
     (Subscribe ch id m).2 = None ->
     OpUnsubscribe ch id ∉ ops ->
     (Subscribe ch id (run_ops ops (Subscribe ch id m).1)).2
       = Some ErrActiveSubscription).
Proof.
  split.
  - intros Hin. rewrite Subscribe_result. by rewrite decide_True.
  - intros ops Hok Hnot.
    rewrite (Subscribe_result ch id (run_ops _ _)). rewrite decide_True; [done|].
    apply run_ops_keeps; [done|].
    rewrite Subscribe_result in Hok |- *. case_decide; simpl in *; [done|].
    rewrite lookup_insert_eq. simpl. set_solver.
Qed.

Lemma Subscribe_active_rejected_witness :
  (Subscribe (ChanRef 1) "a"
     (run_ops [OpSubscribe (ChanRef 2) "a"; OpUnsubscribe (ChanRef 2) "a";
               OpUnsubscribe (ChanRef 1) "b"]
        (Subscribe (ChanRef 1) "a" ∅).1)).2 = Some ErrActiveSubscription.
Proof.
  apply (proj2 (Subscribe_active_rejected ∅ (ChanRef 1) "a")).
  - reflexivity.
  - rewrite !not_elem_of_cons. split_and!; try discriminate. apply not_elem_of_nil.
Defined.

(** C2. Whatever the registry, [Unsubscribe(ch, id)] returns [ErrNotFound]
    exactly when [id] has no entry or [ch] is not in the slice of [id];
    otherwise it returns nil, the old slice of [id] is the new one plus one
    occurrence of [ch], no other identifier changes, and the entry of [id] is
    deleted (never left as an empty slice) exactly when [ch] was its only
    element. *)
Theorem Unsubscribe_removes_one (m : registry) (ch : Chan) (id : Cid) :
  ((Unsubscribe ch id m).2 = Some ErrNotFound <->
   m !! id = None \/ ch ∉ slice_of (m !! id)) /\
  ((Unsubscribe ch id m).2 <> Some ErrNotFound ->
   (Unsubscribe ch id m).2 = None /\
   exists l, m !! id = Some l /\
     l ≡ₚ ch :: slice_of ((Unsubscribe ch id m).1 !! id) /\
     (Unsubscribe ch id m).1 !! id <> Some [] /\
     ((Unsubscribe ch id m).1 !! id = None <-> length l = 1%nat) /\
     (forall id', id' <> id -> (Unsubscribe ch id m).1 !! id' = m !! id')).
Proof.
  split; [apply Unsubscribe_not_found|].
  intros Hne. destruct (Unsubscribe_result ch id m) as [He | [He _]]; [|done].
  split; [done|].
  destruct (Unsubscribe ch id m) as [m' e] eqn:Hu. simpl in *. subst e.
  apply Unsubscribe_ok_inv in Hu as (l & Hl & _ & Hp & Hnil & Hdel & Hother).
  by exists l.
Qed.

Lemma Unsubscribe_removes_one_witness :
  (Unsubscribe (ChanRef 1) "a" reg_three).2 = None.
Proof.
  apply (proj2 (Unsubscribe_removes_one reg_three (ChanRef 1) "a")).
  vm_compute. discriminate.
Defined.

(** C3. Starting from the empty registry, after any sequence of [Subscribe]
    and [Unsubscribe] calls every identifier in the map has a non-empty
    slice in which no channel occurs twice. *)
Theorem registry_invariant (ops : list op) : registry_wf (run_ops ops ∅).
Proof.
  apply run_ops_wf. intros id l Hl. by rewrite lookup_empty in Hl.
Qed.

(** C4. When [ch] is not in the slice of [id], [Subscribe(ch, id)] returns
    nil, the slice of [id] becomes the old one (empty if there was none) with
    [ch] appended at its end, and no other identifier changes. *)
Theorem Subscribe_fresh_appends (m : registry) (ch : Chan) (id : Cid) :
  ch ∉ slice_of (m !! id) ->
  (Subscribe ch id m).2 = None /\
  (Subscribe ch id m).1 !! id = Some (slice_of (m !! id) ++ [ch]) /\
  (forall id', id' <> id -> (Subscribe ch id m).1 !! id' = m !! id').
Proof.
  intros Hnot. rewrite Subscribe_result, decide_False by done. simpl.
  split_and!; [done | by rewrite lookup_insert_eq |].
  intros id' Hne. by rewrite lookup_insert_ne.
Qed.

Lemma Subscribe_fresh_appends_witness :
  (Subscribe (ChanRef 2) "a" reg_one).2 = None /\
  (Subscribe (ChanRef 2) "a" reg_one).1 !! "a"
    = Some (slice_of (reg_one !! "a") ++ [ChanRef 2]) /\
  (forall id', id' <> "a" ->
     (Subscribe (ChanRef 2) "a" reg_one).1 !! id' = reg_one !! id').
Proof.
  apply (Subscribe_fresh_appends reg_one (ChanRef 2) "a").
  unfold reg_one. rewrite lookup_singleton_eq. simpl.
  rewrite not_elem_of_cons. split; [discriminate | apply not_elem_of_nil].
Defined.

(** C10. Whenever [Subscribe] or [Unsubscribe] returns a non-nil error, the
    registry after the call is the registry before it. *)
Theorem registry_error_atomic (o : op) (m : registry) :
  (apply_op o m).2 <> None -> (apply_op o m).1 = m.
Proof.
  destruct o as [ch id | ch id]; simpl.
  - rewrite Subscribe_result. by case_decide.
  - destruct (Unsubscribe_result ch id m) as [He | [_ Hsame]]; [by rewrite He | done].
Qed.

Lemma registry_error_atomic_witness :
  (apply_op (OpUnsubscribe (ChanRef 2) "a") reg_one).1 = reg_one.
Proof.
  apply (registry_error_atomic (OpUnsubscribe (ChanRef 2) "a") reg_one).
  vm_compute. discriminate.
Defined.

End RegistryClaims.

(** ** Fanout *)

Section FanoutFacts.

Implicit Types (s : Chan) (h : gmap nat chan_state) (l : list Chan).

Lemma try_send_cases s h :
  (is_closed s h = true /\ try_send s h = (h, SendPanics)) \/
  (is_closed s h = false /\ can_accept s h = false /\ try_send s h = (h, Skipped)) \/
  (is_closed s h = false /\ can_accept s h = true /\ (try_send s h).2 = Sent).
Proof.
  destruct s as [|a]; simpl; [by right; left|].
  destruct (h !! a) as [cs|]; [|by right; left].
  destruct (ch_closed cs); simpl; [by left | right].
  destruct (0 <? ch_recvq cs)%nat; simpl; [by right|].
  destruct (ch_len cs <? ch_cap cs)%nat; simpl; [by right | by left].
Qed.

(** A send never closes or reopens a channel. *)
Lemma try_send_is_closed s s' h : is_closed s' (try_send s h).1 = is_closed s' h.
Proof.
  destruct s as [|a]; simpl; [done|].
  destruct (h !! a) as [cs|] eqn:Ha; [|done].
  destruct (ch_closed cs) eqn:Hc; simpl; [done|].
  destruct s' as [|b]; [by repeat case_match|].
  destruct (decide (a = b)) as [<-|Hne].
  - destruct (0 <? ch_recvq cs)%nat, (ch_len cs <? ch_cap cs)%nat;
      simpl; rewrite ?lookup_insert_eq, ?Ha; simpl; congruence.
  - destruct (0 <? ch_recvq cs)%nat, (ch_len cs <? ch_cap cs)%nat;
      simpl; rewrite ?lookup_insert_ne by done; done.
Qed.

(** A send never makes room in any channel. *)
Lemma try_send_keeps_full s s' h :
  can_accept s' h = false -> can_accept s' (try_send s h).1 = false.
Proof.
  intros Hfull.
  destruct (try_send_cases s h) as [[_ ->] | [(_ & _ & ->) | (_ & Hacc & _)]]; [done..|].
  destruct s as [|a]; [done|]. destruct s' as [|b]; [done|].
  destruct (decide (a = b)) as [<-|Hne]; [congruence|].
  simpl in *. destruct (h !! a) as [cs|]; [|done].
  destruct (ch_closed cs), (0 <? ch_recvq cs)%nat, (ch_len cs <? ch_cap cs)%nat;
    simpl; rewrite ?lookup_insert_ne by done; done.
Qed.

Lemma send_all_open l h :
  Forall (fun s => is_closed s h = false) l ->
  exists h' evs,
    send_all l h = (h', evs, false) /\
    sends evs = l /\
    (forall s, can_accept s h = false ->
       (forall r, EvSend s r ∈ evs -> r = Skipped) /\ can_accept s h' = false).
Proof.
  revert h. induction l as [|s rest IH]; intros h Hopen.
  - exists h, []. simpl. split_and!; [done..|].
    intros s Hs. split; [|done]. by intros r ?%elem_of_nil.
  - apply Forall_cons in Hopen as [Hs Hrest].
    assert (Forall (fun s0 => is_closed s0 (try_send s h).1 = false) rest) as Hrest'.
    { eapply Forall_impl; [exact Hrest|]. intros s0 H0. simpl in H0.
      by rewrite try_send_is_closed. }
    destruct (IH _ Hrest') as (h' & evs & Hrun & Hsends & Hfull).
    simpl.
    destruct (try_send_cases s h) as [[Hc _] | [(_ & Hacc & Heq) | (_ & Hacc & Heq)]];
      [congruence | |].
    + rewrite Heq in *. simpl in *. rewrite Hrun.
      eexists _, _. split_and!; [done | simpl; by rewrite Hsends |].
      intros s0 H0. destruct (Hfull s0 H0) as [Hev Hh']. split; [|done].
      intros r [Hr | [Hr | Hr]%elem_of_cons]%elem_of_cons; [congruence | done | eauto].
    + destruct (try_send s h) as [h1 r1] eqn:Hts. simpl in *. subst r1. rewrite Hrun.
      eexists _, _. split_and!; [done | simpl; by rewrite Hsends |].
      intros s0 H0.
      assert (can_accept s0 h1 = false) as H1.
      { pose proof (try_send_keeps_full s s0 h H0) as Hk. by rewrite Hts in Hk. }
      destruct (Hfull s0 H1) as [Hev Hh']. split; [|done].
      intros r [Hr | Hr]%elem_of_cons; [|eauto].
      injection Hr as -> ->. congruence.
Qed.

(** A send changes the state of no other channel. *)
Lemma try_send_other s s' h :
  s <> s' -> can_accept s' (try_send s h).1 = can_accept s' h.
Proof.
  intros Hne. destruct s as [|a]; simpl; [done|].
  destruct (h !! a) as [cs|] eqn:Ha; [|done].
  destruct s' as [|b]; [done|].
  assert (a <> b) by congruence.
  destruct (ch_closed cs), (0 <? ch_recvq cs)%nat, (ch_len cs <? ch_cap cs)%nat;
    simpl; rewrite ?lookup_insert_ne by done; done.
Qed.

(** With no channel twice in the slice, what each subscriber gets depends on
    its own channel only: the value when the channel can take it, a skip
    otherwise. *)
Lemma send_all_outcomes l h :
  NoDup l ->
  Forall (fun s => is_closed s h = false) l ->
  forall s, s ∈ l ->
    EvSend s (if can_accept s h then Sent else Skipped) ∈ (send_all l h).1.2.
Proof.
  revert h. induction l as [|s0 rest IH]; intros h Hnd Hopen s Hin.
  { by apply elem_of_nil in Hin. }
  apply NoDup_cons in Hnd as [Hnot Hnd].
  apply Forall_cons in Hopen as [Hs0 Hrest].
  assert (Forall (fun s1 => is_closed s1 (try_send s0 h).1 = false) rest) as Hrest'.
  { eapply Forall_impl; [exact Hrest|]. intros s1 H1. simpl in H1.
    by rewrite try_send_is_closed. }
  assert (s ∈ rest ->
          EvSend s (if can_accept s h then Sent else Skipped)
            ∈ (send_all rest (try_send s0 h).1).1.2) as Htail.
  { intros Hr. rewrite <- (try_send_other s0 s h) by (intros ->; done).
    by apply IH. }
  simpl.
  destruct (try_send_cases s0 h) as [[Hc _] | [(_ & Hacc & Heq) | (_ & Hacc & Heq)]];
    [congruence | |].
  - rewrite Heq in *. simpl in *.
    destruct (send_all rest h) as [[h2 evs2] p2]. simpl in *.
    apply elem_of_cons in Hin as [-> | Hin].
    + rewrite Hacc. left.
    + right. right. auto.
  - destruct (try_send s0 h) as [h1 r1]. simpl in *. subst r1.
    destruct (send_all rest h1) as [[h2 evs2] p2]. simpl in *.
    apply elem_of_cons in Hin as [-> | Hin].
    + rewrite Hacc. left.
    + right. auto.
Qed.

(** A channel's attempt at its first place in the slice is decided by the
    state the channel was in when the record arrived. *)
Lemma send_all_first_outcome l1 s l2 h :
  Forall (fun s0 => is_closed s0 h = false) (l1 ++ s :: l2) ->
  s ∉ l1 ->
  outcomes (send_all (l1 ++ s :: l2) h).1.2 !! length l1
    = Some (s, if can_accept s h then Sent else Skipped).
Proof.
  revert h. induction l1 as [|s0 rest IH]; intros h Hopen Hnot.
  - simpl in *. apply Forall_cons in Hopen as [Hs _].
    destruct (try_send_cases s h) as [[Hc _] | [(_ & Hacc & Heq) | (_ & Hacc & Heq)]];
      [congruence | |].
    + rewrite Heq, Hacc. by destruct (send_all l2 h) as [[h2 evs2] p2].
    + destruct (try_send s h) as [h1 r1]. simpl in Heq. subst r1. rewrite Hacc.
      by destruct (send_all l2 h1) as [[h2 evs2] p2].
  - apply not_elem_of_cons in Hnot as [Hne Hnot].
    change ((s0 :: rest) ++ s :: l2) with (s0 :: (rest ++ s :: l2)) in *.
    apply Forall_cons in Hopen as [Hs0 Hrest].
    assert (Forall (fun s1 => is_closed s1 (try_send s0 h).1 = false) (rest ++ s :: l2))
      as Hrest'.
    { eapply Forall_impl; [exact Hrest|]. intros s1 H1. simpl in H1.
      by rewrite try_send_is_closed. }
    specialize (IH _ Hrest' Hnot).
    rewrite (try_send_other s0 s h) in IH by done.
    cbn [send_all length].
    destruct (try_send_cases s0 h) as [[Hc _] | [(_ & _ & Heq) | (_ & _ & Heq)]];
      [congruence | |].
    + rewrite Heq in *. simpl in IH.
      by destruct (send_all (rest ++ s :: l2) h) as [[h2 evs2] p2].
    + destruct (try_send s0 h) as [h1 r1]. simpl in Heq, IH. subst r1.
      by destruct (send_all (rest ++ s :: l2) h1) as [[h2 evs2] p2].
Qed.

End FanoutFacts.

Section FanoutClaims.

(** C6 (as amended). For every record: when its identifier has no entry the
    goroutine only looks it up; otherwise, provided none of the channels
    registered for the identifier was closed, it attempts one non-blocking
    send on each of them in turn, hands the value to those that can take it,
    skips those that cannot and goes on with the others, and raises
    nothing. *)
Theorem fanout_one_attempt_each (c : conn) (di : DealInfo) (st : state) :
  Forall (fun s => is_closed s (chans st) = false)
         (slice_of (subs st !! ProposalCid di)) ->
  fanout_as_specified c di st.
Proof.
  intros Hopen. unfold fanout_as_specified, fanout.
  destruct (subs st !! ProposalCid di) as [l|] eqn:Hl; simpl in *.
  - destruct (send_all_open l (chans st) Hopen) as (h' & evs & Hrun & Hsends & Hfull).
    rewrite Hrun. simpl. split_and!; [done | done | | | done | done].
    + intros l1 s l2 -> Hnot.
      pose proof (send_all_first_outcome l1 s l2 (chans st) Hopen Hnot) as Hout.
      by rewrite Hrun in Hout.
    + intros s Hs. destruct (Hfull s Hs) as [Hev Hh']. split; [|done].
      intros r [Hr | Hr]%elem_of_cons; [done | eauto].
  - split_and!; [done | done | | | done | done].
    + intros l1 s l2 Heq. by destruct l1.
    + intros s Hs. split; [|done].
      intros r [Hr | Hr%elem_of_nil]%elem_of_cons; done.
Qed.

Lemma fanout_one_attempt_each_witness :
  fanout_as_specified 7%nat {| ProposalCid := "a" |} (watching heap_full_first).
Proof.
  apply (fanout_one_attempt_each 7%nat {| ProposalCid := "a" |} (watching heap_full_first)).
  vm_compute. repeat constructor.
Defined.

(** C6 as stated fails when a subscriber closed its channel: the send on it
    panics, the goroutine crashes and the channels after it get no attempt. *)
Lemma fanout_closed_channel_panics :
  ~ fanout_as_specified 7%nat {| ProposalCid := "a" |} (watching heap_closed_first).
Proof.
  unfold fanout_as_specified.
  replace (fanout 7%nat {| ProposalCid := "a" |} (watching heap_closed_first))
    with (set_goroutine (watching heap_closed_first) Crashed true heap_closed_first,
          [EvLookup "a"; EvSend (ChanRef 1) SendPanics; EvCleanup 7%nat; EvCloseFinished])
    by (by vm_compute).
  simpl. intros [Hpc _]. discriminate.
Qed.

(** Backpressure isolation: in a registry that satisfies the invariant, a
    full channel takes nothing from the other subscribers of the same
    identifier. *)
Lemma fanout_outcomes (c : conn) (di : DealInfo) (st : state) (l : list Chan) :
  subs st !! ProposalCid di = Some l ->
  NoDup l ->
  Forall (fun s => is_closed s (chans st) = false) l ->
  forall s, s ∈ l ->
    EvSend s (if can_accept s (chans st) then Sent else Skipped) ∈ (fanout c di st).2.
Proof.
  intros Hl Hnd Hopen s Hin. unfold fanout. rewrite Hl.
  pose proof (send_all_outcomes l (chans st) Hnd Hopen s Hin) as Hev.
  destruct (send_all_open l (chans st) Hopen) as (h' & evs & Hrun & _ & _).
  rewrite Hrun in *. simpl in *. by right.
Qed.

(** After the last subscriber of an identifier unsubscribed, a record for it
    gives no send at all. *)
Lemma fanout_after_last_unsubscribe (c : conn) (ch : Chan) (id : Cid) (st : state) :
  subs st !! id = Some [ch] ->
  (dw_Unsubscribe ch id st).2 = None /\
  (fanout c {| ProposalCid := id |} (dw_Unsubscribe ch id st).1).2 = [EvLookup id].
Proof.
  intros Hl. unfold dw_Unsubscribe, Registry.Unsubscribe. rewrite Hl. simpl.
  rewrite (decide_True (P := ch = ch)) by done.
  rewrite decide_False by done. simpl. split; [done|].
  unfold fanout. simpl. by rewrite lookup_delete_eq.
Qed.

Example fanout_skips_full_channel :
  (fanout 7%nat {| ProposalCid := "a" |} (watching heap_full_first)).2 =
  [EvLookup "a"; EvSend (ChanRef 1) Skipped; EvLog Warn "skipping slow receiver";
   EvSend (ChanRef 2) Sent].
Proof. by vm_compute. Qed.

Example fanout_unwatched_identifier :
  fanout 7%nat {| ProposalCid := "b" |} (watching heap_full_first) =
  (watching heap_full_first, [EvLookup "b"]).
Proof. by vm_compute. Qed.

End FanoutClaims.

(** ** The background goroutine *)

Section DaemonFacts.

Implicit Types (st : state) (i : input) (evs : list event).

(** The goroutine writes none of [subs], [closed] and the context. *)
Lemma fanout_frame c di st :
  subs (fanout c di st).1 = subs st /\
  closed (fanout c di st).1 = closed st /\
  closeCtx_done (fanout c di st).1 = closeCtx_done st.
Proof.
  unfold fanout. destruct (subs st !! ProposalCid di) as [l|]; [|done].
  destruct (send_all l (chans st)) as [[h' evs] []]; done.
Qed.

Lemma step_frame st i st' evs :
  step st i = Some (st', evs) ->
  subs st' = subs st /\ closed st' = closed st /\ closeCtx_done st' = closeCtx_done st.
Proof.
  unfold step, do_return. intros Hstep.
  destruct (goroutine st) as [|c|di| |], i as [r| |di'|]; try done.
  - destruct (createUpdateChan r); by injection Hstep as <- <-.
  - destruct (closeCtx_done st) eqn:Hd; [|done]. by injection Hstep as <- <-.
  - injection Hstep as Hf. pose proof (fanout_frame c di' st) as Hfr.
    rewrite Hf in Hfr. done.
  - destruct (closeCtx_done st) eqn:Hd; by injection Hstep as <- <-.
  - destruct (createUpdateChan r) as [c|]; [|by injection Hstep as <- <-].
    pose proof (fanout_frame c di st) as Hfr.
    destruct (fanout c di st) as [st1 evs1]. by injection Hstep as <- <-.
Qed.

(** A goroutine that returned or crashed takes no further step. *)
Lemma step_after_exit st i :
  goroutine st = Returned \/ goroutine st = Crashed -> step st i = None.
Proof. unfold step. by intros [-> | ->]. Qed.

Lemma run_app ins1 ins2 st :
  run (ins1 ++ ins2) st =
  match run ins1 st with
  | None => None
  | Some (st1, evs1) =>
      match run ins2 st1 with
      | None => None
      | Some (st2, evs2) => Some (st2, evs1 ++ evs2)
      end
  end.
Proof.
  revert st. induction ins1 as [|i rest IH]; intros st; simpl.
  - by destruct (run ins2 st) as [[st2 evs2]|].
  - destruct (step st i) as [[st1 evs1]|]; [|done].
    rewrite IH. destruct (run rest st1) as [[st2 evs2]|]; [|done].
    destruct (run ins2 st2) as [[st3 evs3]|]; [|done].
    by rewrite app_assoc.
Qed.

(** Failed attempts leave the goroutine in the reconnect loop, each logging
    a warning and sleeping thirty seconds. *)
Lemma run_failed_attempts st di (fails : list dial) :
  goroutine st = AtRetry di ->
  Forall (fun r => createUpdateChan r = None) fails ->
  run (map InDial fails) st = Some (st, fails ≫= retry_events).
Proof.
  intros Hpc. induction 1 as [|r rest Hr _ IH]; simpl; [done|].
  unfold step. rewrite Hpc, Hr. by rewrite IH.
Qed.

Lemma step_unexpected_closure st c :
  goroutine st = AtSelect c ->
  closeCtx_done st = false ->
  step st InClosed =
    Some (at_retry st, [EvLog Warn "updates channel closed unexpectedly"; EvCleanup c]).
Proof. intros Hpc Hd. unfold step. by rewrite Hpc, Hd. Qed.

Lemma run_until_reconnected st c (fails : list dial) c' :
  goroutine st = AtSelect c ->
  closeCtx_done st = false ->
  Forall (fun r => createUpdateChan r = None) fails ->
  run (InClosed :: map InDial fails ++ [InDial (DialOk c')]) st =
    Some ((fanout c' zero_DealInfo (at_retry st)).1,
          [EvLog Warn "updates channel closed unexpectedly"; EvCleanup c]
          ++ (fails ≫= retry_events)
          ++ EvCreateUpdateChan (DialOk c') :: (fanout c' zero_DealInfo (at_retry st)).2).
Proof.
  intros Hpc Hd Hfails.
  change (InClosed :: map InDial fails ++ [InDial (DialOk c')])
    with ([InClosed] ++ (map InDial fails ++ [InDial (DialOk c')])).
  rewrite run_app. simpl. rewrite (step_unexpected_closure st c) by done.
  rewrite run_app, (run_failed_attempts (at_retry st) zero_DealInfo) by done.
  simpl. unfold step at 1. simpl.
  destruct (fanout c' zero_DealInfo (at_retry st)) as [st' evs]. simpl.
  by rewrite !app_nil_r.
Qed.

(** The fanout begins with the lookup of the record's identifier and leaves
    the goroutine at the select, or crashed. *)
Lemma fanout_shape c di st :
  exists evs, (fanout c di st).2 = EvLookup (ProposalCid di) :: evs /\
    (goroutine (fanout c di st).1 = AtSelect c \/ goroutine (fanout c di st).1 = Crashed) /\
    (forall r, EvCreateUpdateChan r ∉ evs).
Proof.
  unfold fanout. destruct (subs st !! ProposalCid di) as [l|].
  2:{ eexists. split_and!; [done | by left | intros r; apply not_elem_of_nil]. }
  assert (forall h, forall r, EvCreateUpdateChan r ∉ (send_all l h).1.2) as Hno.
  { induction l as [|s rest IH]; intros h r; simpl; [apply not_elem_of_nil|].
    destruct (try_send s h) as [h1 []]; simpl.
    - specialize (IH h1 r). destruct (send_all rest h1) as [[h2 evs2] p2]. simpl in *.
      rewrite not_elem_of_cons. done.
    - specialize (IH h1 r). destruct (send_all rest h1) as [[h2 evs2] p2]. simpl in *.
      rewrite !not_elem_of_cons. done.
    - rewrite not_elem_of_cons. split; [done | apply not_elem_of_nil]. }
  specialize (Hno (chans st)).
  destruct (send_all l (chans st)) as [[h' evs] []]; simpl in *.
  - eexists. split_and!; [done | by right |].
    intros r. rewrite not_elem_of_app. split; [done|].
    unfold run_defers. rewrite !not_elem_of_cons. split_and!; [done..|apply not_elem_of_nil].
  - eexists. split_and!; [done | by left | done].
Qed.

(** The caller of [Close] is released exactly when [closeFinished] is
    closed. *)
Lemma await_finished_inv ins st st' evs b :
  await_finished ins st = Some (st', evs, b) ->
  b = closeFinished st' /\
  subs st' = subs st /\ closed st' = closed st /\ closeCtx_done st' = closeCtx_done st.
Proof.
  revert st evs. induction ins as [|i rest IH]; intros st evs; simpl.
  - destruct (closeFinished st) eqn:Hf; intros [= <- <- <-]; done.
  - destruct (closeFinished st) eqn:Hf; [intros [= <- <- <-]; done|].
    destruct (step st i) as [[st1 evs1]|] eqn:Hstep; [|done].
    destruct (await_finished rest st1) as [[[st2 evs2] b2]|] eqn:Haw; [|done].
    intros [= <- <- <-].
    apply IH in Haw as (-> & Hs & Hc & Hd).
    apply step_frame in Hstep as (Hs1 & Hc1 & Hd1).
    split_and!; congruence.
Qed.

(** Once the deferred calls are registered, every way out of the loop runs
    them: [cls] of the connection then held, and after it the one
    [close(dw.closeFinished)]. *)
Lemma exit_runs_defers st i st' evs :
  goroutine st <> AtStart ->
  step st i = Some (st', evs) ->
  goroutine st' = Returned \/ goroutine st' = Crashed ->
  closeFinished st' = true /\
  exists pre c', evs = pre ++ [EvCleanup c'; EvCloseFinished] /\ EvCloseFinished ∉ pre.
Proof.
  assert (forall l h, EvCloseFinished ∉ (send_all l h).1.2) as Hno.
  { induction l as [|s rest IH]; intros h; simpl; [apply not_elem_of_nil|].
    destruct (try_send s h) as [h1 []]; simpl.
    - specialize (IH h1). destruct (send_all rest h1) as [[h2 evs2] p2]. simpl in *.
      rewrite not_elem_of_cons. done.
    - specialize (IH h1). destruct (send_all rest h1) as [[h2 evs2] p2]. simpl in *.
      rewrite !not_elem_of_cons. done.
    - rewrite not_elem_of_cons. split; [done | apply not_elem_of_nil]. }
  assert (forall c di st1 evs1,
            fanout c di st = (st1, evs1) ->
            goroutine st1 = Returned \/ goroutine st1 = Crashed ->
            closeFinished st1 = true /\
            exists pre, evs1 = pre ++ [EvCleanup c; EvCloseFinished] /\
                        EvCloseFinished ∉ pre) as Hfan.
  { intros c di st1 evs1. unfold fanout.
    destruct (subs st !! ProposalCid di) as [l|].
    2:{ intros [= <- <-]. simpl. by intros [? | ?]. }
    specialize (Hno l (chans st)).
    destruct (send_all l (chans st)) as [[h' evs0] []]; intros [= <- <-]; simpl in *.
    - intros _. split; [done|]. exists (EvLookup (ProposalCid di) :: evs0).
      split; [done|]. rewrite not_elem_of_cons. done.
    - by intros [? | ?]. }
  unfold step, do_return. intros Hpc Hstep Hexit.
  destruct (goroutine st) as [|c|di| |] eqn:Hg, i as [r| |di'|]; try done.
  - destruct (closeCtx_done st); [|done]. injection Hstep as <- <-.
    split; [done|]. exists [], c. split; [done | apply not_elem_of_nil].
  - injection Hstep as Hf. destruct (Hfan c di' st' evs Hf Hexit) as (? & pre & ? & ?).
    eauto.
  - destruct (closeCtx_done st); injection Hstep as <- <-.
    + split; [done|]. exists [], c. split; [done | apply not_elem_of_nil].
    + simpl in Hexit. by destruct Hexit.
  - destruct (createUpdateChan r) as [c|].
    + destruct (fanout c di st) as [st1 evs1] eqn:Hf. injection Hstep as <- <-.
      destruct (Hfan c di st1 evs1 Hf Hexit) as (? & pre & -> & ?).
      split; [done|]. exists (EvCreateUpdateChan r :: pre), c.
      split; [done|]. rewrite not_elem_of_cons. done.
    + injection Hstep as <- <-. rewrite Hg in Hexit. by destruct Hexit.
Qed.

End DaemonFacts.

Section DaemonClaims.

(** C8. When the updates channel is found closed while the context is not
    cancelled, the goroutine calls [cls] on the broken connection and then
    calls [createUpdateChan] again and again, sleeping thirty seconds after
    each failure, until a call succeeds; when the channel is found closed (or
    the select takes the cancellation) while the context is cancelled, it
    runs the final cleanup and returns without calling [createUpdateChan]. *)
Theorem upstream_closure (st : state) (c : conn) :
  goroutine st = AtSelect c ->
  (closeCtx_done st = false ->
   forall (fails : list dial) (c' : conn),
     Forall (fun r => createUpdateChan r = None) fails ->
     run (InClosed :: map InDial fails) st =
       Some (at_retry st,
             [EvLog Warn "updates channel closed unexpectedly"; EvCleanup c]
             ++ (fails ≫= retry_events)) /\
     exists st' evs,
       run (InClosed :: map InDial fails ++ [InDial (DialOk c')]) st =
         Some (st',
               [EvLog Warn "updates channel closed unexpectedly"; EvCleanup c]
               ++ (fails ≫= retry_events)
               ++ EvCreateUpdateChan (DialOk c') :: evs) /\
       (goroutine st' = AtSelect c' \/ goroutine st' = Crashed) /\
       (forall r, EvCreateUpdateChan r ∉ evs)) /\
  (closeCtx_done st = true ->
   forall i, i = InClosed \/ i = InDone ->
     step st i = Some (set_goroutine st Returned true (chans st),
                       [EvCleanup c; EvCloseFinished]) /\
     forall i', step (set_goroutine st Returned true (chans st)) i' = None).
Proof.
  intros Hpc. split.
  - intros Hd fails c' Hfails. split.
    + change (InClosed :: map InDial fails) with ([InClosed] ++ map InDial fails).
      rewrite run_app. simpl. rewrite (step_unexpected_closure st c) by done.
      rewrite (run_failed_attempts (at_retry st) zero_DealInfo) by done.
      done.
    + rewrite (run_until_reconnected st c fails c') by done.
      destruct (fanout_shape c' zero_DealInfo (at_retry st)) as (evs & Hevs & Hgo & Hno).
      eexists _, _. split; [done|]. split; [done|].
      intros r. rewrite Hevs, not_elem_of_cons. split; [done | apply Hno].
  - intros Hd i Hi. split.
    + unfold step, do_return, run_defers. rewrite Hpc, Hd. by destruct Hi as [-> | ->].
    + intros i'. apply step_after_exit. by left.
Qed.

Lemma upstream_closure_witness :
  run (InClosed :: map InDial [DialCbFails; DialUpdatesFails 8%nat])
      (watching heap_full_first) =
    Some (at_retry (watching heap_full_first),
          [EvLog Warn "updates channel closed unexpectedly"; EvCleanup 7%nat]
          ++ ([DialCbFails; DialUpdatesFails 8%nat] ≫= retry_events)).
Proof.
  apply (proj1 (upstream_closure (watching heap_full_first) 7%nat eq_refl) eq_refl
           [DialCbFails; DialUpdatesFails 8%nat] 9%nat).
  repeat constructor.
Defined.

(** C9. After the updates channel closed unexpectedly and a
    [createUpdateChan] call succeeded, the goroutine goes on in the same
    loop iteration with the zero-valued record of the closed receive: it
    looks up the zero identifier and fans out to its subscribers, exactly as
    it does for a record received with that identifier, before it is back at
    the select. *)
Theorem reconnect_processes_zero_record
    (st : state) (c : conn) (fails : list dial) (c' : conn) :
  goroutine st = AtSelect c ->
  closeCtx_done st = false ->
  Forall (fun r => createUpdateChan r = None) fails ->
  exists st' pre post,
    run (InClosed :: map InDial fails ++ [InDial (DialOk c')]) st =
      Some (st', pre ++ EvCreateUpdateChan (DialOk c') :: EvLookup cid_Undef :: post) /\
    (forall r, EvLookup r ∉ pre) /\
    fanout c' zero_DealInfo (at_retry st) = (st', EvLookup cid_Undef :: post) /\
    step (set_goroutine st (AtSelect c') (closeFinished st) (chans st))
         (InRecv zero_DealInfo) = Some (st', EvLookup cid_Undef :: post).
Proof.
  intros Hpc Hd Hfails.
  rewrite (run_until_reconnected st c fails c') by done.
  destruct (fanout_shape c' zero_DealInfo (at_retry st)) as (post & Hevs & _ & _).
  destruct (fanout c' zero_DealInfo (at_retry st)) as [st' evs] eqn:Hf.
  simpl in Hevs. subst evs.
  exists st', ([EvLog Warn "updates channel closed unexpectedly"; EvCleanup c]
               ++ (fails ≫= retry_events)), post.
  split_and!.
  - by rewrite <- app_assoc.
  - intros r. rewrite not_elem_of_app. split.
    + rewrite !not_elem_of_cons. split_and!; [done | done | apply not_elem_of_nil].
    + clear. induction fails as [|f rest IH]; simpl; [apply not_elem_of_nil|].
      rewrite !not_elem_of_cons. done.
  - done.
  - unfold step. simpl. by rewrite <- Hf.
Qed.

Lemma reconnect_processes_zero_record_witness :
  exists st' pre post,
    run (InClosed :: map InDial [DialCbFails] ++ [InDial (DialOk 9%nat)])
        (watching heap_full_first) =
      Some (st', pre ++ EvCreateUpdateChan (DialOk 9%nat) :: EvLookup cid_Undef :: post) /\
    (forall r, EvLookup r ∉ pre) /\
    fanout 9%nat zero_DealInfo (at_retry (watching heap_full_first))
      = (st', EvLookup cid_Undef :: post) /\
    step (set_goroutine (watching heap_full_first) (AtSelect 9%nat)
            (closeFinished (watching heap_full_first)) (chans (watching heap_full_first)))
         (InRecv zero_DealInfo) = Some (st', EvLookup cid_Undef :: post).
Proof.
  apply (reconnect_processes_zero_record (watching heap_full_first) 7%nat
           [DialCbFails] 9%nat eq_refl eq_refl).
  repeat constructor.
Defined.

End DaemonClaims.

(** ** Shutdown *)

Section CloseClaims.

(** C5 (as amended). The shutdown logic runs once and [Close] never errors.
    A [Close] that finds [closed] unset sets it, cancels the context and is
    released only by the closing of [closeFinished] (as when the select of a
    running goroutine takes the cancellation), holding [closeLock]
    meanwhile.  A [Close] made once that call has returned finds [closed]
    set and returns nil at once, nothing changed.  A [Close] made while that
    call is still waiting blocks in [closeLock.Lock()] until
    [closeFinished] is closed and then returns nil; it cancels nothing and
    sets nothing.  No [Close] ever returns an error. *)
Theorem Close_idempotent (ins : list input) (st : state) :
  (closed st = true -> closeFinished st = true ->
   Close ins st = Some (st, [], CloseReturns None)) /\
  (closed st = true -> closeFinished st = false ->
   (forall st' evs res, Close ins st = Some (st', evs, res) ->
      await_finished ins st = Some (st', evs, closeFinished st') /\
      subs st' = subs st /\ closed st' = true /\
      closeCtx_done st' = closeCtx_done st /\
      (res = CloseReturns None /\ closeFinished st' = true \/
       res = CloseWaitsLock /\ closeFinished st' = false)) /\
   Close [] st = Some (st, [], CloseWaitsLock) /\
   (closeCtx_done st = true -> forall c, goroutine st = AtSelect c ->
      Close (InDone :: ins) st =
        Some (set_goroutine st Returned true (chans st),
              [EvCleanup c; EvCloseFinished], CloseReturns None))) /\
  (closed st = false ->
   forall st' evs res, Close ins st = Some (st', evs, res) ->
     closed st' = true /\ closeCtx_done st' = true /\
     (res = CloseReturns None /\ closeFinished st' = true \/
      res = CloseBlocked /\ closeFinished st' = false) /\
     (res = CloseReturns None ->
      forall ins', Close ins' st' = Some (st', [], CloseReturns None)) /\
     (res = CloseBlocked -> Close [] st' = Some (st', [], CloseWaitsLock))) /\
  (closed st = false -> closeFinished st = false ->
   forall c, goroutine st = AtSelect c ->
     Close (InDone :: ins) st =
       Some ({| subs := subs st; closeCtx_done := true; closeFinished := true;
                closed := true; goroutine := Returned; chans := chans st |},
             [EvCleanup c; EvCloseFinished], CloseReturns None)) /\
  (forall st' evs err, Close ins st = Some (st', evs, CloseReturns err) -> err = None).
Proof.
  unfold Close, closeLock_held. split_and!.
  - by intros -> ->.
  - intros Hc Hf. rewrite Hc, Hf. simpl. split_and!.
    + intros st' evs res.
      destruct (await_finished ins st) as [[[st2 evs2] b]|] eqn:Haw; [|done].
      apply await_finished_inv in Haw as (-> & Hs & Hcl & Hd).
      destruct (closeFinished st2) eqn:Hf2; intros [= <- <- <-];
        rewrite Hf2; split_and!; try done; try congruence; auto.
    + by rewrite Hf.
    + intros Hd c Hpc. rewrite Hf. unfold step, do_return, run_defers.
      rewrite Hpc, Hd. simpl. by destruct ins.
  - intros Hc st' evs res. rewrite Hc. simpl.
    destruct (await_finished ins _) as [[[st2 evs2] b]|] eqn:Haw; [|done].
    apply await_finished_inv in Haw as (-> & _ & Hcl & Hd). simpl in *.
    destruct (closeFinished st2) eqn:Hf; intros [= <- <- <-].
    + split_and!; [done | done | by left | | done].
      intros _ ins'. by rewrite Hcl, Hf.
    + split_and!; [done | done | by right | done |].
      intros _. by rewrite Hcl, Hf.
  - intros Hc Hf c Hpc. rewrite Hc. simpl. rewrite Hf. unfold step. simpl.
    rewrite Hpc. simpl. by destruct ins.
  - intros st' evs err.
    destruct (closed st && negb (closeFinished st)).
    + destruct (await_finished ins st) as [[[st2 evs2] []]|]; [|done..].
      by intros [= <- <- <-].
    + destruct (closed st); [by intros [= <- <- <-]|].
      destruct (await_finished ins _) as [[[st2 evs2] []]|]; [|done..].
      by intros [= <- <- <-].
Qed.

Lemma Close_idempotent_witness :
  Close (InDone :: []) (close_pending heap_full_first) =
    Some (set_goroutine (close_pending heap_full_first) Returned true
            (chans (close_pending heap_full_first)),
          [EvCleanup 7%nat; EvCloseFinished], CloseReturns None).
Proof.
  apply (proj1 (proj2 (Close_idempotent [] (close_pending heap_full_first))));
    reflexivity.
Defined.

(** C5 as stated fails for a call made while the first is still waiting: it
    does not return at once but is parked in [closeLock.Lock()]. *)
Lemma Close_waits_for_the_lock :
  ~ later_Close_returns_at_once [] (close_pending heap_full_first).
Proof.
  unfold later_Close_returns_at_once. intros Hnow.
  specialize (Hnow eq_refl). vm_compute in Hnow. discriminate.
Qed.

Example Close_first_then_second :
  Close [InDone] (watching heap_full_first) =
    Some (shut_down heap_full_first, [EvCleanup 7%nat; EvCloseFinished], CloseReturns None) /\
  Close [InDone] (shut_down heap_full_first) =
    Some (shut_down heap_full_first, [], CloseReturns None).
Proof. by vm_compute. Qed.

Example Close_during_Close :
  Close [] (watching heap_full_first) =
    Some (close_pending heap_full_first, [], CloseBlocked) /\
  Close [] (close_pending heap_full_first) =
    Some (close_pending heap_full_first, [], CloseWaitsLock) /\
  Close [InDone] (close_pending heap_full_first) =
    Some (shut_down heap_full_first, [EvCleanup 7%nat; EvCloseFinished], CloseReturns None).
Proof. by vm_compute. Qed.

(** C7 fails on the first connection: when the first [createUpdateChan]
    fails, the goroutine logs and returns before the deferred calls are
    registered, so [closeFinished] is never closed and no [Close] of that
    watcher ever returns. *)
Theorem initial_failure_never_signals (h : gmap nat chan_state) (r : dial) :
  createUpdateChan r = None ->
  exists st,
    step (New h) (InDial r) =
      Some (st, [EvCreateUpdateChan r; EvLog Error "creating initial updates chan"]) /\
    goroutine st = Returned /\
    closeFinished st = false /\
    (forall i, step st i = None) /\
    (exists st', Close [] st = Some (st', [], CloseBlocked)) /\
    (forall ins st' evs err, Close ins st <> Some (st', evs, CloseReturns err)).
Proof.
  intros Hr. eexists. unfold step. simpl. rewrite Hr. split_and!; [done..| |].
  - by eexists.
  - intros ins st' evs err. unfold Close, closeLock_held. simpl.
    destruct ins as [|i rest]; simpl; done.
Qed.

Lemma initial_failure_never_signals_witness :
  exists st,
    step (New ∅) (InDial DialCbFails) =
      Some (st, [EvCreateUpdateChan DialCbFails;
                 EvLog Error "creating initial updates chan"]) /\
    goroutine st = Returned /\
    closeFinished st = false /\
    (forall i, step st i = None) /\
    (exists st', Close [] st = Some (st', [], CloseBlocked)) /\
    (forall ins st' evs err, Close ins st <> Some (st', evs, CloseReturns err)).
Proof.
  apply (initial_failure_never_signals ∅ DialCbFails). reflexivity.
Defined.

End CloseClaims.

(** * Further properties of the watcher *)

Section RegistryRoundTrip.

Import Registry.

Implicit Types (ch s : Chan) (id : Cid) (l : list Chan) (m : gmap string (list Chan)).

Lemma find_idx_fresh_last ch l i :
  ch ∉ l -> find_idx ch (l ++ [ch]) i = i + Z.of_nat (length l).
Proof.
  revert i. induction l as [|s rest IH]; intros i Hnot; simpl.
  - rewrite decide_True by done. lia.
  - apply not_elem_of_cons in Hnot as [Hne Hnot].
    rewrite decide_False by congruence. rewrite IH by done. lia.
Qed.

Lemma find_idx_first ch l1 l2 i :
  ch ∉ l1 -> find_idx ch (l1 ++ ch :: l2) i = i + Z.of_nat (length l1).
Proof.
  revert i. induction l1 as [|s rest IH]; intros i Hnot; simpl.
  - rewrite decide_True by done. lia.
  - apply not_elem_of_cons in Hnot as [Hne Hnot].
    rewrite decide_False by congruence. rewrite IH by done. lia.
Qed.

(** X1. [Unsubscribe] undoes [Subscribe]: subscribing a channel that is not
    yet registered for the identifier and unsubscribing it again gives back
    the registry as it was, slice order included, provided the identifier
    was not mapped to an empty slice. *)
Theorem Subscribe_then_Unsubscribe m ch id :
  ch ∉ slice_of (m !! id) ->
  m !! id <> Some [] ->
  Unsubscribe ch id (Subscribe ch id m).1 = (m, None).
Proof.
  intros Hnot Hne. rewrite Subscribe_result, decide_False by done. simpl.
  unfold Unsubscribe. rewrite lookup_insert_eq. simpl.
  rewrite find_idx_fresh_last by done.
  destruct (m !! id) as [l|] eqn:Hl; simpl in *.
  - destruct l as [|s rest]; [done|].
    rewrite decide_False by (simpl; lia).
    rewrite decide_False by (rewrite length_app; simpl; lia).
    rewrite Z.add_0_l, swap_remove_last, insert_insert_eq.
    by rewrite insert_id.
  - by rewrite delete_insert_id.
Qed.

Lemma Subscribe_then_Unsubscribe_witness :
  Unsubscribe (ChanRef 4) "a" (Subscribe (ChanRef 4) "a" reg_three).1 = (reg_three, None).
Proof.
  apply (Subscribe_then_Unsubscribe reg_three (ChanRef 4) "a").
  - unfold reg_three. rewrite lookup_singleton_eq. simpl.
    rewrite !not_elem_of_cons. split_and!; try discriminate. apply not_elem_of_nil.
  - unfold reg_three. rewrite lookup_singleton_eq. discriminate.
Defined.

(** X2. [Unsubscribe] does not keep the order of the slice: the last
    subscriber takes the place of the first occurrence of the removed
    channel and the others stay where they were; removing the last
    subscriber of several only shortens the slice. *)
Theorem Unsubscribe_moves_last m ch id l1 l2 x :
  ch ∉ l1 ->
  (m !! id = Some (l1 ++ ch :: l2 ++ [x]) ->
   Unsubscribe ch id m = (<[id := l1 ++ x :: l2]> m, None)) /\
  (m !! id = Some (l1 ++ [ch]) -> l1 <> [] ->
   Unsubscribe ch id m = (<[id := l1]> m, None)).
Proof.
  intros Hnot. split.
  - intros Hl. unfold Unsubscribe. rewrite Hl. simpl.
    rewrite find_idx_first by done.
    rewrite decide_False by lia.
    rewrite decide_False by (rewrite !length_app; simpl; rewrite length_app; simpl; lia).
    by rewrite Z.add_0_l, swap_remove_inner.
  - intros Hl Hne. unfold Unsubscribe. rewrite Hl. simpl.
    rewrite find_idx_first by done.
    rewrite decide_False by lia.
    destruct l1 as [|s rest]; [done|].
    rewrite decide_False by (simpl; rewrite length_app; simpl; lia).
    by rewrite Z.add_0_l, swap_remove_last.
Qed.

Lemma Unsubscribe_moves_last_witness :
  Unsubscribe (ChanRef 1) "a" reg_three = (<[ "a" := [ChanRef 3; ChanRef 2] ]> reg_three, None).
Proof.
  apply (proj1 (Unsubscribe_moves_last reg_three (ChanRef 1) "a" [] [ChanRef 2] (ChanRef 3)
                  (not_elem_of_nil _))).
  reflexivity.
Defined.

End RegistryRoundTrip.

Section GoroutineFootprint.

Implicit Types (s : Chan) (h : gmap nat chan_state) (l : list Chan) (st : state).

Lemma send_all_footprint l h s :
  is_closed s (send_all l h).1.1 = is_closed s h /\
  (can_accept s h = false -> can_accept s (send_all l h).1.1 = false).
Proof.
  revert h. induction l as [|s0 rest IH]; intros h; simpl; [done|].
  pose proof (try_send_is_closed s0 s h) as Hc.
  pose proof (try_send_keeps_full s0 s h) as Hf.
  destruct (try_send s0 h) as [h1 r1]. simpl in *.
  specialize (IH h1). destruct r1.
  - destruct (send_all rest h1) as [[h2 evs2] p2]. simpl in *.
    destruct IH as [IH1 IH2]. split; [congruence | auto].
  - destruct (send_all rest h1) as [[h2 evs2] p2]. simpl in *.
    destruct IH as [IH1 IH2]. split; [congruence | auto].
  - simpl. done.
Qed.

Lemma fanout_footprint c di st s :
  is_closed s (chans (fanout c di st).1) = is_closed s (chans st) /\
  (can_accept s (chans st) = false -> can_accept s (chans (fanout c di st).1) = false).
Proof.
  unfold fanout. destruct (subs st !! ProposalCid di) as [l|]; [|done].
  pose proof (send_all_footprint l (chans st) s) as Hfp.
  destruct (send_all l (chans st)) as [[h' evs] []]; done.
Qed.

Lemma step_footprint st i st' evs s :
  step st i = Some (st', evs) ->
  is_closed s (chans st') = is_closed s (chans st) /\
  (can_accept s (chans st) = false -> can_accept s (chans st') = false).
Proof.
  unfold step, do_return. intros Hstep.
  destruct (goroutine st) as [|c|di| |], i as [r| |di'|]; try done.
  - destruct (createUpdateChan r); by injection Hstep as <- <-.
  - destruct (closeCtx_done st); [|done]. by injection Hstep as <- <-.
  - injection Hstep as Hf. pose proof (fanout_footprint c di' st s) as Hfp.
    by rewrite Hf in Hfp.
  - destruct (closeCtx_done st); by injection Hstep as <- <-.
  - destruct (createUpdateChan r) as [c|]; [|by injection Hstep as <- <-].
    pose proof (fanout_footprint c di st s) as Hfp.
    destruct (fanout c di st) as [st1 evs1]. by injection Hstep as <- <-.
Qed.

(** X3. Whatever the goroutine meets, it writes neither the registry nor the
    [closed] flag nor the context, it never closes (or reopens) a
    subscriber's channel, and it never makes room in one: a channel that
    cannot take a value stays so until its owner reads from it. *)
Theorem goroutine_footprint (ins : list input) (st st' : state) (evs : list event) :
  run ins st = Some (st', evs) ->
  subs st' = subs st /\
  closed st' = closed st /\
  closeCtx_done st' = closeCtx_done st /\
  (forall s, is_closed s (chans st') = is_closed s (chans st)) /\
  (forall s, can_accept s (chans st) = false -> can_accept s (chans st') = false).
Proof.
  revert st evs. induction ins as [|i rest IH]; intros st evs; simpl.
  - by intros [= <- <-].
  - destruct (step st i) as [[st1 evs1]|] eqn:Hstep; [|done].
    destruct (run rest st1) as [[st2 evs2]|] eqn:Hrun; [|done].
    intros [= <- <-].
    destruct (IH _ _ Hrun) as (Hs & Hc & Hd & Hcl & Hfull).
    destruct (step_frame _ _ _ _ Hstep) as (Hs1 & Hc1 & Hd1).
    split_and!; try congruence.
    + intros s. rewrite Hcl. by apply (step_footprint st i st1 evs1 s).
    + intros s Hs0. apply Hfull. by apply (step_footprint st i st1 evs1 s).
Qed.

Lemma goroutine_footprint_witness :
  subs (fanout 7%nat {| ProposalCid := "a" |} (watching heap_full_first)).1
    = subs (watching heap_full_first) /\
  closed (fanout 7%nat {| ProposalCid := "a" |} (watching heap_full_first)).1
    = closed (watching heap_full_first) /\
  closeCtx_done (fanout 7%nat {| ProposalCid := "a" |} (watching heap_full_first)).1
    = closeCtx_done (watching heap_full_first) /\
  (forall s, is_closed s (chans (fanout 7%nat {| ProposalCid := "a" |}
                                   (watching heap_full_first)).1)
             = is_closed s (chans (watching heap_full_first))) /\
  (forall s, can_accept s (chans (watching heap_full_first)) = false ->
             can_accept s (chans (fanout 7%nat {| ProposalCid := "a" |}
                                    (watching heap_full_first)).1) = false).
Proof.
  apply (goroutine_footprint [InRecv {| ProposalCid := "a" |}] (watching heap_full_first)
           _ (fanout 7%nat {| ProposalCid := "a" |} (watching heap_full_first)).2).
  by vm_compute.
Defined.

End GoroutineFootprint.

Section FanoutComposition.

Import Registry.

Implicit Types (s ch : Chan) (h : gmap nat chan_state) (l : list Chan) (st : state).

(** X4. Backpressure isolation: in a registry that satisfies the invariant
    and with no closed channel among the subscribers of the record's
    identifier, one record brings exactly one send on each of them, and
    what each gets depends on its own channel only: the value when that
    channel can take one, a skip otherwise, however full the channels of the
    others are. *)
Theorem backpressure_isolation (c : conn) (di : DealInfo) (st : state) (l : list Chan) :
  goroutine st = AtSelect c ->
  subs st !! ProposalCid di = Some l ->
  NoDup l ->
  Forall (fun s => is_closed s (chans st) = false) l ->
  exists st' evs,
    step st (InRecv di) = Some (st', evs) /\
    goroutine st' = AtSelect c /\
    sends evs = l /\
    (forall s, s ∈ l ->
       EvSend s (if can_accept s (chans st) then Sent else Skipped) ∈ evs).
Proof.
  intros Hpc Hl Hnd Hopen.
  exists (fanout c di st).1, (fanout c di st).2. split_and!.
  - unfold step. rewrite Hpc. by destruct (fanout c di st).
  - unfold fanout. rewrite Hl.
    by destruct (send_all_open l (chans st) Hopen) as (h' & evs & -> & _ & _).
  - unfold fanout. rewrite Hl.
    by destruct (send_all_open l (chans st) Hopen) as (h' & evs & -> & Hs & _).
  - by apply fanout_outcomes.
Qed.

Lemma backpressure_isolation_witness :
  exists st' evs,
    step (watching heap_full_first) (InRecv {| ProposalCid := "a" |}) = Some (st', evs) /\
    goroutine st' = AtSelect 7%nat /\
    sends evs = [ChanRef 1; ChanRef 2] /\
    (forall s, s ∈ [ChanRef 1; ChanRef 2] ->
       EvSend s (if can_accept s (chans (watching heap_full_first)) then Sent else Skipped)
         ∈ evs).
Proof.
  apply (backpressure_isolation 7%nat {| ProposalCid := "a" |} (watching heap_full_first)
           [ChanRef 1; ChanRef 2]).
  - reflexivity.
  - reflexivity.
  - apply NoDup_cons. split.
    + rewrite not_elem_of_cons. split; [discriminate | apply not_elem_of_nil].
    + apply NoDup_singleton.
  - repeat constructor.
Defined.

(** The sends of the inner loop follow the slice, up to a panic. *)
Lemma send_all_sends_prefix l h : sends (send_all l h).1.2 `prefix_of` l.
Proof.
  revert h. induction l as [|s rest IH]; intros h; simpl; [done|].
  destruct (try_send s h) as [h1 []].
  - specialize (IH h1). destruct (send_all rest h1) as [[h2 evs2] p2]. simpl in *.
    by apply prefix_cons.
  - specialize (IH h1). destruct (send_all rest h1) as [[h2 evs2] p2]. simpl in *.
    by apply prefix_cons.
  - simpl. apply prefix_cons, prefix_nil.
Qed.

Lemma fanout_sends_prefix c di st :
  sends (fanout c di st).2 `prefix_of` slice_of (subs st !! ProposalCid di).
Proof.
  unfold fanout. destruct (subs st !! ProposalCid di) as [l|]; simpl; [|done].
  pose proof (send_all_sends_prefix l (chans st)) as Hp.
  destruct (send_all l (chans st)) as [[h' evs] []]; simpl in *; [|done].
  assert (sends (evs ++ run_defers c) = sends evs) as ->; [|done].
  clear. induction evs as [|[] rest IH]; simpl; congruence.
Qed.

(** X5. In a registry that satisfies the invariant, once [Unsubscribe(ch, id)]
    has returned nil a record for [id] makes the goroutine attempt no send on
    [ch]. *)
Theorem no_send_after_Unsubscribe (c : conn) (ch : Chan) (id : Cid) (st : state) :
  registry_wf (subs st) ->
  goroutine st = AtSelect c ->
  (dw_Unsubscribe ch id st).2 = None ->
  exists st' evs,
    step (dw_Unsubscribe ch id st).1 (InRecv {| ProposalCid := id |}) = Some (st', evs) /\
    ch ∉ sends evs.
Proof.
  intros Hwf Hpc. unfold dw_Unsubscribe.
  destruct (Unsubscribe ch id (subs st)) as [m' e] eqn:Hu. simpl. intros ->.
  set (st1 := {| subs := m'; closeCtx_done := closeCtx_done st;
                 closeFinished := closeFinished st; closed := closed st;
                 goroutine := goroutine st; chans := chans st |}).
  exists (fanout c {| ProposalCid := id |} st1).1, (fanout c {| ProposalCid := id |} st1).2.
  split.
  { unfold step. simpl. rewrite Hpc. by destruct (fanout _ _ _). }
  apply Unsubscribe_ok_inv in Hu as (l & Hl & _ & Hp & _ & _ & _).
  destruct (Hwf id l Hl) as [_ Hnd]. rewrite Hp in Hnd.
  apply NoDup_cons in Hnd as [Hnot _].
  intros Hin. apply Hnot.
  eapply elem_of_prefix; [exact Hin|].
  apply (fanout_sends_prefix c {| ProposalCid := id |} st1).
Qed.

Lemma no_send_after_Unsubscribe_witness :
  exists st' evs,
    step (dw_Unsubscribe (ChanRef 1) "a" (watching heap_full_first)).1
         (InRecv {| ProposalCid := "a" |}) = Some (st', evs) /\
    ChanRef 1 ∉ sends evs.
Proof.
  apply (no_send_after_Unsubscribe 7%nat (ChanRef 1) "a" (watching heap_full_first)).
  - replace (subs (watching heap_full_first))
      with (run_ops [OpSubscribe (ChanRef 1) "a"; OpSubscribe (ChanRef 2) "a"] ∅)
      by (by vm_compute).
    apply run_ops_wf. intros id l Hl. by rewrite lookup_empty in Hl.
  - reflexivity.
  - reflexivity.
Defined.

(** X6. In a registry that satisfies the invariant and with no closed channel
    among the subscribers, once [Subscribe(ch, id)] has returned nil the next
    record for [id] brings one send on [ch]: the value is delivered when the
    channel can take it and the send is skipped otherwise, whatever the state
    of the other subscribers; the goroutine is back at the select. *)
Theorem update_after_Subscribe (c : conn) (ch : Chan) (id : Cid) (st : state) :
  registry_wf (subs st) ->
  goroutine st = AtSelect c ->
  Forall (fun s => is_closed s (chans st) = false) (slice_of (subs st !! id)) ->
  is_closed ch (chans st) = false ->
  (dw_Subscribe ch id st).2 = None ->
  exists st' evs,
    step (dw_Subscribe ch id st).1 (InRecv {| ProposalCid := id |}) = Some (st', evs) /\
    EvSend ch (if can_accept ch (chans st) then Sent else Skipped) ∈ evs /\
    goroutine st' = AtSelect c.
Proof.
  intros Hwf Hpc Hopen Hch. unfold dw_Subscribe.
  pose proof (apply_op_wf (OpSubscribe ch id) (subs st) Hwf) as Hwf'. simpl in Hwf'.
  rewrite Subscribe_result in Hwf' |- *.
  destruct (decide (ch ∈ slice_of (subs st !! id))) as [Hin|Hnot]; [done|].
  simpl in *. intros _.
  set (st1 := {| subs := <[id:=slice_of (subs st !! id) ++ [ch]]> (subs st);
                 closeCtx_done := closeCtx_done st; closeFinished := closeFinished st;
                 closed := closed st; goroutine := goroutine st; chans := chans st |}).
  assert (subs st1 !! id = Some (slice_of (subs st !! id) ++ [ch])) as Hl
    by apply lookup_insert_eq.
  assert (Forall (fun s => is_closed s (chans st1) = false)
                 (slice_of (subs st !! id) ++ [ch])) as Hopen1.
  { apply Forall_app. split; [done|]. by apply Forall_singleton. }
  unfold step. simpl. rewrite Hpc.
  exists (fanout c {| ProposalCid := id |} st1).1, (fanout c {| ProposalCid := id |} st1).2.
  split; [by destruct (fanout _ _ _)|]. split.
  - apply (fanout_outcomes c {| ProposalCid := id |} st1 _ Hl);
      [by apply (Hwf' id) | done | set_solver].
  - unfold fanout. simpl ProposalCid. rewrite Hl.
    destruct (send_all_open _ (chans st1) Hopen1) as (h' & evs & -> & _ & _).
    done.
Qed.

Lemma update_after_Subscribe_witness :
  exists st' evs,
    step (dw_Subscribe (ChanRef 3) "a" (watching heap_full_first)).1
         (InRecv {| ProposalCid := "a" |}) = Some (st', evs) /\
    EvSend (ChanRef 3)
      (if can_accept (ChanRef 3) (chans (watching heap_full_first)) then Sent else Skipped)
      ∈ evs /\
    goroutine st' = AtSelect 7%nat.
Proof.
  apply (update_after_Subscribe 7%nat (ChanRef 3) "a" (watching heap_full_first)).
  - replace (subs (watching heap_full_first))
      with (run_ops [OpSubscribe (ChanRef 1) "a"; OpSubscribe (ChanRef 2) "a"] ∅)
      by (by vm_compute).
    apply run_ops_wf. intros id l Hl. by rewrite lookup_empty in Hl.
  - reflexivity.
  - vm_compute. repeat constructor.
  - reflexivity.
  - reflexivity.
Defined.

End FanoutComposition.

Section GoroutineLifetime.

Implicit Types (s : Chan) (h : gmap nat chan_state) (l : list Chan) (st : state).

Lemma send_all_until_closed l1 s l2 h :
  Forall (fun s0 => is_closed s0 h = false) l1 ->
  is_closed s h = true ->
  exists h' evs,
    send_all (l1 ++ s :: l2) h = (h', evs ++ [EvSend s SendPanics], true) /\
    sends evs = l1.
Proof.
  revert h. induction l1 as [|s0 rest IH]; intros h Hopen Hs; simpl.
  - destruct (try_send_cases s h) as [[_ ->] | [(Hc & _) | (Hc & _)]]; [|congruence..].
    by exists h, [].
  - apply Forall_cons in Hopen as [Hs0 Hrest].
    assert (Forall (fun s1 => is_closed s1 (try_send s0 h).1 = false) rest) as Hrest'.
    { eapply Forall_impl; [exact Hrest|]. intros s1 H1. simpl in H1.
      by rewrite try_send_is_closed. }
    assert (is_closed s (try_send s0 h).1 = true) as Hs' by by rewrite try_send_is_closed.
    destruct (IH _ Hrest' Hs') as (h' & evs & Hrun & Hsends).
    destruct (try_send_cases s0 h) as [[Hc _] | [(_ & _ & Heq) | (_ & _ & Heq)]];
      [congruence | |].
    + rewrite Heq in *. simpl in *. rewrite Hrun.
      eexists _, (_ :: _ :: evs). split; [done|]. simpl. by rewrite Hsends.
    + destruct (try_send s0 h) as [h1 r1]. simpl in *. subst r1. rewrite Hrun.
      eexists _, (_ :: evs). split; [done|]. simpl. by rewrite Hsends.
Qed.

(** X7. A closed channel among the subscribers of an identifier ends the
    fanout of a record for it: the channels before it get their attempt, the
    send on it panics, the channels after it get none, and the goroutine
    crashes after running its deferred calls ([cls()] of the connection
    held, then the closing of [closeFinished]). *)
Theorem fanout_stops_at_closed_channel
    (c : conn) (di : DealInfo) (st : state) (l1 : list Chan) (s : Chan) (l2 : list Chan) :
  goroutine st = AtSelect c ->
  subs st !! ProposalCid di = Some (l1 ++ s :: l2) ->
  Forall (fun s0 => is_closed s0 (chans st) = false) l1 ->
  is_closed s (chans st) = true ->
  exists st' pre,
    step st (InRecv di)
      = Some (st', pre ++ [EvSend s SendPanics; EvCleanup c; EvCloseFinished]) /\
    goroutine st' = Crashed /\
    closeFinished st' = true /\
    sends pre = l1 /\
    (forall i, step st' i = None).
Proof.
  intros Hpc Hl Hopen Hs. unfold step, fanout. rewrite Hpc, Hl.
  destruct (send_all_until_closed l1 s l2 (chans st) Hopen Hs) as (h' & evs & -> & Hsends).
  eexists _, (EvLookup (ProposalCid di) :: evs). split_and!.
  - simpl. by rewrite <- app_assoc.
  - done.
  - done.
  - done.
  - intros i. by apply step_after_exit; right.
Qed.

Lemma fanout_stops_at_closed_channel_witness :
  exists st' pre,
    step (watching heap_closed_first) (InRecv {| ProposalCid := "a" |})
      = Some (st', pre ++ [EvSend (ChanRef 1) SendPanics; EvCleanup 7%nat; EvCloseFinished]) /\
    goroutine st' = Crashed /\
    closeFinished st' = true /\
    sends pre = [] /\
    (forall i, step st' i = None).
Proof.
  apply (fanout_stops_at_closed_channel 7%nat {| ProposalCid := "a" |}
           (watching heap_closed_first) [] (ChanRef 1) [ChanRef 2]).
  - reflexivity.
  - reflexivity.
  - constructor.
  - reflexivity.
Defined.

Lemma cleaned_app evs1 evs2 : cleaned (evs1 ++ evs2) = cleaned evs1 ++ cleaned evs2.
Proof. induction evs1 as [|[] rest IH]; simpl; congruence. Qed.

Lemma connected_app evs1 evs2 :
  connected (evs1 ++ evs2) = connected evs1 ++ connected evs2.
Proof. induction evs1 as [|[[]| | | | | |] rest IH]; simpl; congruence. Qed.

Lemma send_all_quiet l h :
  cleaned (send_all l h).1.2 = [] /\ connected (send_all l h).1.2 = [] /\
  EvCloseFinished ∉ (send_all l h).1.2.
Proof.
  revert h. induction l as [|s rest IH]; intros h; simpl.
  { split_and!; [done | done | apply not_elem_of_nil]. }
  destruct (try_send s h) as [h1 []]; simpl.
  - destruct (IH h1) as (Hcl & Hco & Hno).
    destruct (send_all rest h1) as [[h2 evs2] p2]. simpl in *.
    rewrite not_elem_of_cons. done.
  - destruct (IH h1) as (Hcl & Hco & Hno).
    destruct (send_all rest h1) as [[h2 evs2] p2]. simpl in *.
    rewrite !not_elem_of_cons. done.
  - rewrite not_elem_of_cons. split_and!; [done | done | done | apply not_elem_of_nil].
Qed.

(** What one pass through the tail of the loop body adds to the account of
    connections: nothing while the goroutine goes on, the release of the
    connection held and the completion signal when it crashes. *)
Lemma fanout_account c di st :
  (closeFinished (fanout c di st).1 = closeFinished st /\
   goroutine (fanout c di st).1 = AtSelect c /\
   cleaned (fanout c di st).2 = [] /\ connected (fanout c di st).2 = [] /\
   EvCloseFinished ∉ (fanout c di st).2) \/
  (closeFinished (fanout c di st).1 = true /\
   goroutine (fanout c di st).1 = Crashed /\
   cleaned (fanout c di st).2 = [c] /\ connected (fanout c di st).2 = [] /\
   exists pre, (fanout c di st).2 = pre ++ [EvCloseFinished] /\ EvCloseFinished ∉ pre).
Proof.
  unfold fanout. destruct (subs st !! ProposalCid di) as [l|].
  2:{ left. simpl. split_and!; [done..|].
      rewrite not_elem_of_cons. split; [done | apply not_elem_of_nil]. }
  destruct (send_all_quiet l (chans st)) as (Hcl & Hco & Hno).
  destruct (send_all l (chans st)) as [[h' evs] []]; simpl in *.
  - right. rewrite cleaned_app, connected_app, Hcl, Hco. simpl.
    split_and!; [done..|].
    exists (EvLookup (ProposalCid di) :: evs ++ [EvCleanup c]). split.
    + simpl. by rewrite <- app_assoc.
    + rewrite not_elem_of_cons, not_elem_of_app, not_elem_of_cons.
      split_and!; [done | done | done | apply not_elem_of_nil].
  - left. split_and!; [done..|]. rewrite not_elem_of_cons. done.
Qed.

(** One step of a goroutine that has not signalled completion: either it
    still has not, and what it released plus what it holds is what it held
    plus what it obtained; or it just did, as its last event, having
    released what it held and what it obtained. *)
Lemma step_account st i st' evs :
  closeFinished st = false ->
  step st i = Some (st', evs) ->
  (closeFinished st' = false /\
   cleaned evs ++ owed (goroutine st') = owed (goroutine st) ++ connected evs /\
   EvCloseFinished ∉ evs) \/
  (closeFinished st' = true /\
   (goroutine st' = Returned \/ goroutine st' = Crashed) /\
   cleaned evs = owed (goroutine st) ++ connected evs /\
   exists pre, evs = pre ++ [EvCloseFinished] /\ EvCloseFinished ∉ pre).
Proof.
  unfold step, do_return, run_defers. intros Hf Hstep.
  destruct (goroutine st) as [|c|di| |] eqn:Hg, i as [r| |di'|]; try done.
  - left. destruct r as [| c | c]; simpl in Hstep; injection Hstep as <- <-; simpl;
      (split_and!; [done | done |]);
      rewrite !not_elem_of_cons; split_and!; try done; apply not_elem_of_nil.
  - destruct (closeCtx_done st); [|done]. injection Hstep as <- <-. right. simpl.
    split_and!; [done | by left | done |].
    exists [EvCleanup c]. split; [done|].
    rewrite not_elem_of_cons. split; [done | apply not_elem_of_nil].
  - injection Hstep as Hfan.
    destruct (fanout_account c di' st) as [(H1 & H2 & H3 & H4 & H5) | (H1 & H2 & H3 & H4 & H5)];
      rewrite Hfan in *; simpl in *.
    + left. rewrite H2, H3, H4. simpl. split_and!; [congruence | done | done].
    + right. rewrite H3, H4. simpl. split_and!; [done | by right | done | done].
  - destruct (closeCtx_done st); injection Hstep as <- <-; simpl.
    + right. split_and!; [done | by left | done |].
      exists [EvCleanup c]. split; [done|].
      rewrite not_elem_of_cons. split; [done | apply not_elem_of_nil].
    + left. split_and!; [done | done |].
      rewrite !not_elem_of_cons. split_and!; try done. apply not_elem_of_nil.
  - destruct r as [| c | c]; simpl in Hstep.
    + injection Hstep as <- <-. left. rewrite Hg. simpl. split_and!; [done | done |].
      rewrite !not_elem_of_cons. split_and!; try done. apply not_elem_of_nil.
    + injection Hstep as <- <-. left. rewrite Hg. simpl. split_and!; [done | done |].
      rewrite !not_elem_of_cons. split_and!; try done. apply not_elem_of_nil.
    + destruct (fanout_account c di st)
        as [(H1 & H2 & H3 & H4 & H5) | (H1 & H2 & H3 & H4 & pre & H5 & H6)];
        destruct (fanout c di st) as [st1 evs1]; injection Hstep as <- <-; simpl in *.
      * left. rewrite H2, H3, H4. simpl. split_and!; [congruence | done |].
        rewrite not_elem_of_cons. done.
      * right. rewrite H3, H4. simpl. split_and!; [done | by right | done |].
        exists (EvCreateUpdateChan (DialOk c) :: pre). split; [by rewrite H5|].
        rewrite not_elem_of_cons. done.
Qed.

Lemma await_finished_account ins st st' evs :
  closeFinished st = false ->
  await_finished ins st = Some (st', evs, true) ->
  (goroutine st' = Returned \/ goroutine st' = Crashed) /\
  cleaned evs = owed (goroutine st) ++ connected evs /\
  exists pre, evs = pre ++ [EvCloseFinished] /\ EvCloseFinished ∉ pre.
Proof.
  revert st evs. induction ins as [|i rest IH]; intros st evs Hf; simpl; rewrite Hf.
  - done.
  - destruct (step st i) as [[st1 evs1]|] eqn:Hstep; [|done].
    destruct (await_finished rest st1) as [[[st2 evs2] b2]|] eqn:Haw; [|done].
    intros [= <- <- ->].
    destruct (step_account st i st1 evs1 Hf Hstep)
      as [(Hf1 & Hacc & Hno) | (Hf1 & Hexit & Hacc & pre & -> & Hno)].
    + destruct (IH st1 evs2 Hf1 Haw) as (Hexit & Hacc2 & pre & -> & Hno2).
      split; [done|]. split.
      * rewrite cleaned_app, connected_app, Hacc2.
        rewrite app_assoc, Hacc. by rewrite <- app_assoc.
      * exists (evs1 ++ pre). split; [by rewrite app_assoc|].
        rewrite not_elem_of_app. done.
    + destruct rest as [|i2 rest2]; simpl in Haw; rewrite Hf1 in Haw;
        injection Haw as <- <-; rewrite app_nil_r; eauto.
Qed.

(** X8. Whenever a first [Close] returns, the goroutine has returned or
    crashed, the closing of [closeFinished] is its last event and happened
    once, and by then it has called [cls()] exactly once, in the order they
    were obtained, on the connection it held when [Close] was called and on
    every connection a later [createUpdateChan] gave it. *)
Theorem Close_returns_after_cleanup (ins : list input) (st st' : state)
    (evs : list event) (err : option error) :
  closed st = false ->
  closeFinished st = false ->
  Close ins st = Some (st', evs, CloseReturns err) ->
  (goroutine st' = Returned \/ goroutine st' = Crashed) /\
  cleaned evs = owed (goroutine st) ++ connected evs /\
  exists pre, evs = pre ++ [EvCloseFinished] /\ EvCloseFinished ∉ pre.
Proof.
  intros Hc Hf. unfold Close, closeLock_held. rewrite Hc. simpl.
  destruct (await_finished ins _) as [[[st2 evs2] []]|] eqn:Haw; [|done..].
  intros [= <- <- <-].
  by apply await_finished_account in Haw.
Qed.

Lemma Close_returns_after_cleanup_witness :
  (goroutine (shut_down heap_full_first) = Returned \/
   goroutine (shut_down heap_full_first) = Crashed) /\
  cleaned [EvCreateUpdateChan (DialOk 9%nat); EvLookup cid_Undef;
           EvCleanup 9%nat; EvCloseFinished]
    = owed (goroutine (at_retry (watching heap_full_first)))
      ++ connected [EvCreateUpdateChan (DialOk 9%nat); EvLookup cid_Undef;
                    EvCleanup 9%nat; EvCloseFinished] /\
  exists pre,
    [EvCreateUpdateChan (DialOk 9%nat); EvLookup cid_Undef;
     EvCleanup 9%nat; EvCloseFinished] = pre ++ [EvCloseFinished] /\
    EvCloseFinished ∉ pre.
Proof.
  apply (Close_returns_after_cleanup [InDial (DialOk 9%nat); InDone]
           (at_retry (watching heap_full_first))
           (shut_down heap_full_first) _ None); reflexivity.
Defined.

End GoroutineLifetime.

Section ReconnectLoop.

Lemma await_failed_attempts (st : state) (di : DealInfo) (fails : list dial) :
  goroutine st = AtRetry di ->
  closeFinished st = false ->
  Forall (fun r => createUpdateChan r = None) fails ->
  await_finished (map InDial fails) st = Some (st, fails ≫= retry_events, false).
Proof.
  intros Hpc Hf. induction 1 as [|r rest Hr _ IH]; simpl; rewrite Hf; [done|].
  unfold step. rewrite Hpc, Hr. by rewrite IH.
Qed.

(** X9. The reconnect loop does not look at the context: a [Close] called
    while the goroutine is in it cancels the context and then stays blocked
    through every failed [createUpdateChan] call, each still followed by its
    thirty-second sleep; the goroutine cannot take the cancellation there. *)
Theorem reconnect_loop_ignores_shutdown (st : state) (di : DealInfo) (fails : list dial) :
  goroutine st = AtRetry di ->
  closed st = false ->
  closeFinished st = false ->
  Forall (fun r => createUpdateChan r = None) fails ->
  exists st',
    Close (map InDial fails) st = Some (st', fails ≫= retry_events, CloseBlocked) /\
    closeCtx_done st' = true /\
    goroutine st' = AtRetry di /\
    step st' InDone = None.
Proof.
  intros Hpc Hc Hf Hfails. unfold Close, closeLock_held. rewrite Hc. simpl.
  rewrite (await_failed_attempts _ di fails) by done.
  eexists. split_and!; [done | done | done |].
  unfold step. simpl. by rewrite Hpc.
Qed.

Lemma reconnect_loop_ignores_shutdown_witness :
  exists st',
    Close (map InDial [DialCbFails; DialCbFails]) (at_retry (watching heap_full_first))
      = Some (st', [DialCbFails; DialCbFails] ≫= retry_events, CloseBlocked) /\
    closeCtx_done st' = true /\
    goroutine st' = AtRetry zero_DealInfo /\
    step st' InDone = None.
Proof.
  apply (reconnect_loop_ignores_shutdown (at_retry (watching heap_full_first))
           zero_DealInfo [DialCbFails; DialCbFails]); try reflexivity.
  repeat constructor.
Defined.

End ReconnectLoop.

(** * The transactional datastore *)

Section SimpleTxFacts.

Import Datastore.

Implicit Types (d : gmap string (list Byte.byte)) (ops : gmap string op)
  (order : list (string * op)) (k : string).

Lemma overlay_lookup ops d k :
  overlay ops d !! k =
  match ops !! k with
  | Some o => if op_delete o then None else Some (op_value o)
  | None => d !! k
  end.
Proof.
  unfold overlay. rewrite lookup_merge.
  destruct (ops !! k) as [o|], (d !! k); simpl; try done; by destruct (op_delete o).
Qed.

Lemma commit_loop_map order d :
  NoDup order.*1 ->
  commit_loop order d = (overlay (list_to_map order) d, None).
Proof.
  revert d. induction order as [|[k o] rest IH]; intros d Hnd; simpl.
  - f_equal. apply map_eq. intros k. by rewrite overlay_lookup, lookup_empty.
  - apply NoDup_cons in Hnd as [Hk Hnd].
    assert ((list_to_map rest : gmap string op) !! k = None) as Hnone
      by by apply not_elem_of_list_to_map_1.
    destruct (op_delete o) eqn:Hdel; simpl; rewrite IH by done; f_equal.
    + apply map_eq. intros k'. rewrite !overlay_lookup.
      destruct (decide (k = k')) as [<-|Hne].
      * by rewrite Hnone, lookup_insert_eq, Hdel, lookup_delete_eq.
      * by rewrite lookup_insert_ne, lookup_delete_ne by done.
    + apply map_eq. intros k'. rewrite !overlay_lookup.
      destruct (decide (k = k')) as [<-|Hne].
      * by rewrite Hnone, !lookup_insert_eq, Hdel.
      * by rewrite !lookup_insert_ne by done.
Qed.

Lemma commit_loop_iteration order ops d :
  iteration_of ops order -> commit_loop order d = (overlay ops d, None).
Proof.
  unfold iteration_of. intros Hperm.
  assert (NoDup order.*1) as Hnd.
  { rewrite Hperm. apply NoDup_fst_map_to_list. }
  assert (list_to_map order = ops) as Hops.
  { rewrite (list_to_map_proper order (map_to_list ops)) by done.
    apply list_to_map_to_list. }
  by rewrite commit_loop_map, Hops.
Qed.

(** X10. [Commit] on the map datastore never fails and its outcome does not
    depend on the order in which the buffered operations are visited: each
    key with a buffered operation ends deleted or holding the last value put
    for it in the transaction, every other key keeps its value. *)
Theorem Commit_outcome (order : list (string * op)) (ops : gmap string op)
    (d : gmap string (list Byte.byte)) :
  iteration_of ops order ->
  SimpleTx_Commit order ops d = (overlay ops d, None) /\
  (forall k, (SimpleTx_Commit order ops d).1 !! k =
     match ops !! k with
     | Some o => if op_delete o then None else Some (op_value o)
     | None => d !! k
     end).
Proof.
  unfold SimpleTx_Commit. intros Hit.
  rewrite (commit_loop_iteration order ops d) by done. split; [done|].
  intros k. apply overlay_lookup.
Qed.

Lemma Commit_outcome_witness :
  SimpleTx_Commit
    (map_to_list (SimpleTx_Delete (SimpleTx_Put ∅ "a" [Byte.x01]).1 "b").1)
    (SimpleTx_Delete (SimpleTx_Put ∅ "a" [Byte.x01]).1 "b").1
    {[ "b" := [Byte.x02]; "c" := [Byte.x03] ]}
  = (overlay (SimpleTx_Delete (SimpleTx_Put ∅ "a" [Byte.x01]).1 "b").1
       {[ "b" := [Byte.x02]; "c" := [Byte.x03] ]}, None).
Proof.
  apply (Commit_outcome
           (map_to_list (SimpleTx_Delete (SimpleTx_Put ∅ "a" [Byte.x01]).1 "b").1)
           (SimpleTx_Delete (SimpleTx_Put ∅ "a" [Byte.x01]).1 "b").1
           {[ "b" := [Byte.x02]; "c" := [Byte.x03] ]}).
  unfold iteration_of. reflexivity.
Defined.

Lemma overlay_buffer_write ops d w :
  overlay (buffer_write ops w) d = direct_write (overlay ops d) w.
Proof.
  apply map_eq. intros k'. rewrite overlay_lookup.
  destruct w as [k v | k]; simpl;
    (destruct (decide (k = k')) as [<-|Hne];
     [ by rewrite !lookup_insert_eq, ?lookup_delete_eq
     | rewrite lookup_insert_ne by done;
       rewrite ?lookup_insert_ne, ?lookup_delete_ne by done;
       by rewrite overlay_lookup ]).
Qed.

Lemma overlay_buffer ws ops d :
  overlay (foldl buffer_write ops ws) d = foldl direct_write (overlay ops d) ws.
Proof.
  revert ops. induction ws as [|w rest IH]; intros ops; simpl; [done|].
  by rewrite IH, overlay_buffer_write.
Qed.

(** X11. A transaction is a deferred batch: the puts and deletes buffered by
    a transaction leave the datastore untouched and unseen by the
    transaction's own reads until [Commit], and committing them leaves the
    map datastore exactly as making the same writes on it directly, one
    after the other, would have. *)
Theorem Commit_replays_writes (ws : list write) (order : list (string * op))
    (d : gmap string (list Byte.byte)) :
  iteration_of (foldl buffer_write NewSimpleTx ws) order ->
  (forall k, SimpleTx_Get (foldl buffer_write NewSimpleTx ws) d k = TxMap_Get d k) /\
  SimpleTx_Commit order (foldl buffer_write NewSimpleTx ws) d
    = (foldl direct_write d ws, None).
Proof.
  intros Hit. split; [done|].
  unfold SimpleTx_Commit. rewrite (commit_loop_iteration order _ d) by done.
  rewrite overlay_buffer. do 2 f_equal.
  apply map_eq. intros k. rewrite overlay_lookup. unfold NewSimpleTx.
  by rewrite lookup_empty.
Qed.

Lemma Commit_replays_writes_witness :
  SimpleTx_Commit
    (map_to_list (foldl buffer_write NewSimpleTx
                    [WPut "a" [Byte.x01]; WDelete "a"; WPut "b" [Byte.x02];
                     WPut "b" [Byte.x03]]))
    (foldl buffer_write NewSimpleTx
       [WPut "a" [Byte.x01]; WDelete "a"; WPut "b" [Byte.x02]; WPut "b" [Byte.x03]])
    {[ "a" := [Byte.x09] ]}
  = (foldl direct_write {[ "a" := [Byte.x09] ]}
       [WPut "a" [Byte.x01]; WDelete "a"; WPut "b" [Byte.x02]; WPut "b" [Byte.x03]],
     None).
Proof.
  apply (Commit_replays_writes
           [WPut "a" [Byte.x01]; WDelete "a"; WPut "b" [Byte.x02]; WPut "b" [Byte.x03]]
           (map_to_list (foldl buffer_write NewSimpleTx
                    [WPut "a" [Byte.x01]; WDelete "a"; WPut "b" [Byte.x02];
                     WPut "b" [Byte.x03]]))
           {[ "a" := [Byte.x09] ]}).
  unfold iteration_of. reflexivity.
Defined.

(** The operations of [order] up to the first one the target refuses. *)
Lemma commit_loop_app {D} `{Target D} (l1 l2 : list (string * op)) (d d1 : D) :
  commit_loop l1 d = (d1, None) ->
  commit_loop (l1 ++ l2) d = commit_loop l2 d1.
Proof.
  revert d. induction l1 as [|[k o] rest IH]; intros d; simpl.
  - by intros [= ->].
  - destruct (if op_delete o then t_Delete d k else t_Put d k (op_value o))
      as [d' [e|]]; [done|]. apply IH.
Qed.

(** X12. [Commit] is not atomic: when the target refuses one of the buffered
    operations, [Commit] returns that error at once, the operations visited
    before it stay applied to the target and those after it are never
    tried. *)
Theorem Commit_stops_at_first_error {D} `{Target D}
    (l1 l2 : list (string * op)) (k : string) (o : op) (ops : gmap string op)
    (d d1 d2 : D) (e : ds_error) :
  iteration_of ops (l1 ++ (k, o) :: l2) ->
  commit_loop l1 d = (d1, None) ->
  (if op_delete o then t_Delete d1 k else t_Put d1 k (op_value o)) = (d2, Some e) ->
  SimpleTx_Commit (l1 ++ (k, o) :: l2) ops d = (d2, Some e).
Proof.
  intros _ H1 H2. unfold SimpleTx_Commit.
  rewrite (commit_loop_app l1 _ d d1) by done. simpl. by rewrite H2.
Qed.

Lemma Commit_stops_at_first_error_witness :
  SimpleTx_Commit
    ([("a", {| op_delete := false; op_value := [Byte.x01] |})]
     ++ ("ro", {| op_delete := false; op_value := [Byte.x02] |})
     :: [("z", {| op_delete := false; op_value := [Byte.x03] |})])
    (foldl buffer_write NewSimpleTx
       [WPut "a" [Byte.x01]; WPut "ro" [Byte.x02]; WPut "z" [Byte.x03]])
    {| guarded_map := ∅ |}
  = ({| guarded_map := {[ "a" := [Byte.x01] ]} |}, Some (ErrDs "read-only key")).
Proof.
  apply (Commit_stops_at_first_error
           [("a", {| op_delete := false; op_value := [Byte.x01] |})]
           [("z", {| op_delete := false; op_value := [Byte.x03] |})]
           "ro" {| op_delete := false; op_value := [Byte.x02] |} _
           {| guarded_map := ∅ |} {| guarded_map := {[ "a" := [Byte.x01] ]} |}).
  - unfold iteration_of.
    replace (foldl buffer_write NewSimpleTx
               [WPut "a" [Byte.x01]; WPut "ro" [Byte.x02]; WPut "z" [Byte.x03]])
      with (list_to_map
              ([("a", {| op_delete := false; op_value := [Byte.x01] |})]
               ++ ("ro", {| op_delete := false; op_value := [Byte.x02] |})
               :: [("z", {| op_delete := false; op_value := [Byte.x03] |})])
            : gmap string op)
      by (by vm_compute).
    symmetry. apply map_to_list_to_map. simpl.
    repeat (apply NoDup_cons; split;
            [rewrite ?not_elem_of_cons; split_and?; try discriminate; apply not_elem_of_nil|]).
    apply NoDup_nil_2.
  - by vm_compute.
  - by vm_compute.
Defined.

End SimpleTxFacts.

(** * The store of reputation sources *)

Section SourceStoreFacts.

Import Datastore SourceStore.

Context `{KeyLib} {Source : Type} `{Codec Source}.

Implicit Types (d : gmap string (list Byte.byte)) (s : Source) (k : string).

(** [put] on an empty transaction writes the encoding under the source's
    key, or fails on the encoding and writes nothing. *)
Lemma Store_put_empty s d :
  Store_put NewSimpleTx s d =
  match json_Marshal s with
  | inl b => (<[genKey (Source_ID s) := b]> d, None)
  | inr msg => (d, Some (ErrJSON msg))
  end.
Proof.
  unfold Store_put. destruct (json_Marshal s) as [b|msg]; [|done].
  unfold SimpleTx_Put, NewSimpleTx, SimpleTx_Commit. simpl.
  by rewrite insert_empty, map_to_list_singleton.
Qed.

Lemma Store_Add_result s d :
  Store_Add s d =
  match d !! genKey (Source_ID s), json_Marshal s with
  | Some _, _ => (d, Some ErrAlreadyExists)
  | None, inl b => (<[genKey (Source_ID s) := b]> d, None)
  | None, inr msg => (d, Some (ErrJSON msg))
  end.
Proof.
  unfold Store_Add, NewTransaction, SimpleTx_Has. simpl. unfold TxMap_Has.
  destruct (d !! genKey (Source_ID s)) as [v|] eqn:Hk.
  - by rewrite bool_decide_eq_true_2.
  - rewrite bool_decide_eq_false_2 by (by intros [? ?]).
    apply Store_put_empty.
Qed.

Lemma Store_Update_result s d :
  Store_Update s d =
  match d !! genKey (Source_ID s), json_Marshal s with
  | None, _ => (d, Some ErrDoesntExists)
  | Some _, inl b => (<[genKey (Source_ID s) := b]> d, None)
  | Some _, inr msg => (d, Some (ErrJSON msg))
  end.
Proof.
  unfold Store_Update, NewTransaction, SimpleTx_Has. simpl. unfold TxMap_Has.
  destruct (d !! genKey (Source_ID s)) as [v|] eqn:Hk.
  - rewrite bool_decide_eq_true_2 by done. apply Store_put_empty.
  - by rewrite bool_decide_eq_false_2 by (by intros [? ?]).
Qed.

(** X13. [Add] never overwrites: when the source's key is present it returns
    [ErrAlreadyExists] and when the source does not encode it returns the
    encoder's error, the datastore untouched in both cases; otherwise it
    returns nil and the only change is the encoding stored under the
    source's key.  Whatever it returns, every value that was stored is still
    stored under its key. *)
Theorem Add_never_overwrites s d :
  (is_Some (d !! genKey (Source_ID s)) -> Store_Add s d = (d, Some ErrAlreadyExists)) /\
  (d !! genKey (Source_ID s) = None ->
   (forall msg, json_Marshal s = inr msg -> Store_Add s d = (d, Some (ErrJSON msg))) /\
   (forall b, json_Marshal s = inl b ->
      Store_Add s d = (<[genKey (Source_ID s) := b]> d, None))) /\
  (forall k v, d !! k = Some v -> (Store_Add s d).1 !! k = Some v).
Proof.
  rewrite Store_Add_result. split_and!.
  - by intros [v ->].
  - intros ->. split; by intros ? ->.
  - intros k v Hk. destruct (d !! genKey (Source_ID s)) as [v0|] eqn:Hg; [done|].
    destruct (json_Marshal s) as [b|msg]; simpl; [|done].
    rewrite lookup_insert_ne; [done|]. congruence.
Qed.

(** X14. [Update] never creates: when the source's key is absent it returns
    [ErrDoesntExists] and when the source does not encode it returns the
    encoder's error, the datastore untouched in both cases; otherwise it
    returns nil and the only change is the new encoding under the source's
    key.  Whatever it returns, the datastore holds the same keys as
    before. *)
Theorem Update_never_creates s d :
  (d !! genKey (Source_ID s) = None -> Store_Update s d = (d, Some ErrDoesntExists)) /\
  (is_Some (d !! genKey (Source_ID s)) ->
   (forall msg, json_Marshal s = inr msg -> Store_Update s d = (d, Some (ErrJSON msg))) /\
   (forall b, json_Marshal s = inl b ->
      Store_Update s d = (<[genKey (Source_ID s) := b]> d, None))) /\
  dom (Store_Update s d).1 = dom d.
Proof.
  rewrite Store_Update_result. split_and!.
  - by intros ->.
  - intros [v ->]. split; by intros ? ->.
  - destruct (d !! genKey (Source_ID s)) as [v0|] eqn:Hg; [|done].
    destruct (json_Marshal s) as [b|msg]; simpl; [|done].
    by apply dom_insert_lookup_L.
Qed.

(** X15. Once [Add] has stored a source, a second [Add] of any source with
    the same [ID] returns [ErrAlreadyExists] and changes nothing, while an
    [Update] of a source with that [ID] that encodes returns nil and
    replaces the stored encoding, leaving every other key as it was before
    the [Add]. *)
Theorem Add_then_Add_or_Update s s' d :
  (Store_Add s d).2 = None ->
  Source_ID s' = Source_ID s ->
  Store_Add s' (Store_Add s d).1 = ((Store_Add s d).1, Some ErrAlreadyExists) /\
  (forall b', json_Marshal s' = inl b' ->
     Store_Update s' (Store_Add s d).1 = (<[genKey (Source_ID s) := b']> d, None)).
Proof.
  rewrite (Store_Add_result s d). intros Hok Hid.
  destruct (d !! genKey (Source_ID s)) as [v0|] eqn:Hg; [done|].
  destruct (json_Marshal s) as [b|msg] eqn:Hm; [|done]. simpl in *. split.
  - rewrite Store_Add_result, Hid. by rewrite lookup_insert_eq.
  - intros b' Hb'. rewrite Store_Update_result, Hid, lookup_insert_eq, Hb'.
    by rewrite insert_insert_eq.
Qed.

End SourceStoreFacts.

Section GetAllFacts.

Import Datastore SourceStore.

Context `{KeyLib} {Source : Type} `{Codec Source}.

Implicit Types (d : gmap string (list Byte.byte)) (s : Source) (k : string)
  (entries order : list (string * list Byte.byte)).

Lemma decode_all_ok entries (ret : list Source) :
  Forall (fun e => exists s, json_Unmarshal e.2 = inl s) entries ->
  exists l, decode_all entries ret = (ret ++ l, None) /\
            Forall2 (fun e s => json_Unmarshal e.2 = inl s) entries l.
Proof.
  intros Hall. revert ret. induction Hall as [|[k v] rest [s Hs] _ IH]; intros ret; simpl.
  - exists []. by rewrite app_nil_r.
  - simpl in Hs. rewrite Hs. destruct (IH (ret ++ [s])) as (l & -> & Hl).
    exists (s :: l). split; [by rewrite <- app_assoc | by constructor].
Qed.

Lemma decode_all_bad entries (ret : list Source) :
  Exists (fun e => exists msg, json_Unmarshal e.2 = inr msg) entries ->
  exists msg, decode_all entries ret = ([], Some (ErrJSON msg)).
Proof.
  revert ret. induction entries as [|[k v] rest IH]; intros ret Hex; simpl.
  - by apply Exists_nil in Hex.
  - destruct (json_Unmarshal v) as [s|msg] eqn:Hv; [|by eexists].
    apply Exists_cons in Hex as [[msg Hmsg] | Hex]; [simpl in Hmsg; congruence|].
    by apply IH.
Qed.

Lemma Store_GetAll_unfold order d :
  Store_GetAll order d =
  decode_all (filter (fun e => query_keeps baseKey e.1 = true) order) [].
Proof. unfold Store_GetAll, NewTransaction, TxMap_Query. simpl. done. Qed.

(** X16. A source that [Add] has just stored is listed by [GetAll],
    whatever the order in which the map is visited, provided its key passes
    the prefix test of the query, its encoding decodes back to it, and the
    values already stored under the prefix decode; [GetAll] then returns one
    source per entry under the prefix. *)
Theorem Add_then_GetAll s (b : list Byte.byte) d order :
  d !! genKey (Source_ID s) = None ->
  json_Marshal s = inl b ->
  json_Unmarshal b = inl s ->
  query_keeps baseKey (genKey (Source_ID s)) = true ->
  (forall k v, d !! k = Some v -> query_keeps baseKey k = true ->
     exists s0, json_Unmarshal v = inl s0) ->
  listing_of (Store_Add s d).1 order ->
  (Store_Add s d).2 = None /\
  exists l, Store_GetAll order (Store_Add s d).1 = (l, None) /\
    s ∈ l /\
    length l = length (filter (fun e => query_keeps baseKey e.1 = true) order).
Proof.
  intros Hk Hm Hu Hkeep Hold. rewrite Store_Add_result, Hk, Hm. simpl.
  unfold listing_of. intros Hperm. split; [done|].
  rewrite Store_GetAll_unfold.
  set (kept := filter (fun e => query_keeps baseKey e.1 = true) order).
  assert (forall k v, (k, v) ∈ order <-> <[genKey (Source_ID s) := b]> d !! k = Some v)
    as Hin.
  { intros k v. rewrite Hperm. apply elem_of_map_to_list. }
  assert (Forall (fun e => exists s0, json_Unmarshal e.2 = inl s0) kept) as Hall.
  { apply Forall_forall. intros [k v] [Hq Hkv%Hin]%list_elem_of_filter. simpl in *.
    destruct (decide (genKey (Source_ID s) = k)) as [<-|Hne].
    - rewrite lookup_insert_eq in Hkv. injection Hkv as <-. eauto.
    - rewrite lookup_insert_ne in Hkv by done. eauto. }
  destruct (decode_all_ok kept [] Hall) as (l & -> & Hl).
  exists l. split; [done|]. split.
  - assert ((genKey (Source_ID s), b) ∈ kept) as Hkb.
    { apply list_elem_of_filter. split; [done|]. apply Hin. apply lookup_insert_eq. }
    apply list_elem_of_lookup in Hkb as [i Hi].
    destruct (Forall2_lookup_l _ _ _ _ _ Hl Hi) as (s1 & Hs1 & Hdec).
    simpl in Hdec. rewrite Hu in Hdec. injection Hdec as <-.
    apply list_elem_of_lookup. eauto.
  - symmetry. by eapply Forall2_length.
Qed.

(** X17. One stored value under the prefix that does not decode makes
    [GetAll] fail as a whole: it returns the decoder's error and no source
    at all, whatever the order in which the map is visited and however many
    other sources are stored. *)
Theorem GetAll_fails_on_one_bad_value d order k (v : list Byte.byte) (msg : string) :
  listing_of d order ->
  d !! k = Some v ->
  query_keeps baseKey k = true ->
  json_Unmarshal v = inr msg ->
  exists msg', Store_GetAll order d = ([], Some (ErrJSON msg')).
Proof.
  unfold listing_of. intros Hperm Hk Hkeep Hbad.
  rewrite Store_GetAll_unfold. apply decode_all_bad.
  apply Exists_exists. exists (k, v). split; [|by exists msg].
  apply list_elem_of_filter. split; [done|].
  rewrite Hperm. by apply elem_of_map_to_list.
Qed.

Lemma clone_loop_union entries (t2 : gmap string (list Byte.byte)) :
  NoDup entries.*1 ->
  Forall (fun e => NewKey e.1 = e.1) entries ->
  clone_loop entries t2 = (Some (list_to_map entries ∪ t2), None).
Proof.
  revert t2. induction entries as [|[k v] rest IH]; intros t2 Hnd Hfix.
  - simpl. by rewrite (left_id_L ∅ (∪)).
  - rewrite fmap_cons in Hnd.
    apply NoDup_cons in Hnd as [Hk Hnd]. apply Forall_cons in Hfix as [Hkk Hfix].
    simpl in Hkk, Hk. cbn [clone_loop TxMap_Put]. rewrite Hkk, IH by done.
    do 2 f_equal. cbn [list_to_map foldr uncurry fst snd].
    rewrite <- insert_union_l. symmetry.
    apply insert_union_r. by apply not_elem_of_list_to_map_1.
Qed.

(** X18. [Clone] returns a datastore with exactly the entries of the one it
    copies and no error, whatever the order in which the map is visited,
    provided the text of every stored key is a key [datastore.NewKey] leaves
    as it is. *)
Theorem Clone_copies_every_entry d order :
  listing_of d order ->
  (forall k, is_Some (d !! k) -> NewKey k = k) ->
  TxMap_Clone order d = (Some d, None).
Proof.
  unfold listing_of. intros Hperm Hfix.
  unfold TxMap_Clone, TxMap_Query. simpl.
  rewrite clone_loop_union.
  - do 2 f_equal. unfold NewTxMapDatastore. rewrite (right_id_L ∅ (∪)).
    rewrite (list_to_map_proper order (map_to_list d)); [apply list_to_map_to_list| |done].
    rewrite Hperm. apply NoDup_fst_map_to_list.
  - rewrite Hperm. apply NoDup_fst_map_to_list.
  - apply Forall_forall. intros [k v] Hkv. simpl. apply Hfix.
    rewrite Hperm in Hkv. apply elem_of_map_to_list in Hkv. eauto.
Qed.

End GetAllFacts.

Section SourceStoreExamples.

Import Datastore SourceStore.

#[local] Existing Instance plain_keys.
#[local] Existing Instance name_codec.

Lemma Add_then_Add_or_Update_witness :
  Store_Add "alice" (Store_Add "alice" ∅).1
    = ((Store_Add "alice" ∅).1, Some ErrAlreadyExists) /\
  (forall b', json_Marshal "alice" = inl b' ->
     Store_Update "alice" (Store_Add "alice" ∅).1
       = (<[genKey (Source_ID "alice") := b']> ∅, None)).
Proof.
  apply (Add_then_Add_or_Update "alice" "alice" ∅); reflexivity.
Defined.

Lemma Add_then_GetAll_witness :
  (Store_Add "alice" ∅).2 = None /\
  exists l,
    Store_GetAll (map_to_list (Store_Add "alice" ∅).1) (Store_Add "alice" ∅).1
      = (l, None) /\
    "alice" ∈ l /\
    length l = length (filter (fun e => query_keeps baseKey e.1 = true)
                              (map_to_list (Store_Add "alice" ∅).1)).
Proof.
  apply (Add_then_GetAll "alice" (String.list_byte_of_string "alice") ∅
           (map_to_list (Store_Add "alice" ∅).1)).
  - apply lookup_empty.
  - reflexivity.
  - reflexivity.
  - reflexivity.
  - intros k v Hk. by rewrite lookup_empty in Hk.
  - unfold listing_of. reflexivity.
Defined.

Lemma GetAll_fails_on_one_bad_value_witness :
  exists msg',
    Store_GetAll
      (map_to_list (<[ "/reputation/store/bob" := [] ]> (Store_Add "alice" ∅).1))
      (<[ "/reputation/store/bob" := [] ]> (Store_Add "alice" ∅).1)
    = ([], Some (ErrJSON msg')).
Proof.
  apply (GetAll_fails_on_one_bad_value
           (<[ "/reputation/store/bob" := [] ]> (Store_Add "alice" ∅).1)
           (map_to_list (<[ "/reputation/store/bob" := [] ]> (Store_Add "alice" ∅).1))
           "/reputation/store/bob" [] "unexpected end of JSON input").
  - unfold listing_of. reflexivity.
  - apply lookup_insert_eq.
  - reflexivity.
  - reflexivity.
Defined.

Lemma Clone_copies_every_entry_witness :
  TxMap_Clone (map_to_list (Store_Add "alice" ∅).1) (Store_Add "alice" ∅).1
    = (Some (Store_Add "alice" ∅).1, None).
Proof.
  apply (Clone_copies_every_entry (Store_Add "alice" ∅).1
           (map_to_list (Store_Add "alice" ∅).1)).
  - unfold listing_of. reflexivity.
  - reflexivity.
Defined.

End SourceStoreExamples.
